(** * Node identifier allocator (plugins/contiv/node_id_allocator.go)

    A shallow embedding of the allocator that hands every node of the
    cluster a small unique number, together with the properties of its
    key codec, of the first-gap search, of [getID] and [releaseID] run
    against an arbitrary key-value store, and of a cluster of allocators
    sharing one store. *)

From Stdlib Require Import ZArith List String Ascii Bool Lia Sorted.
Import ListNotations.

Local Open Scope Z_scope.

(** ** Go values *)

(** [int] is 64 bits wide on the platforms the agent is built for;
    [uint32] is the type of a node identifier. *)
Definition minInt : Z := - 2 ^ 63.
Definition maxInt : Z := 2 ^ 63 - 1.
Definition maxUint32 : Z := 2 ^ 32 - 1.

Definition isInt (z : Z) : Prop := minInt <= z <= maxInt.
Definition isUint32 (z : Z) : Prop := 0 <= z <= maxUint32.

(** Wrap-around of [int] arithmetic and the conversion [uint32(x)]. *)
Definition wrapInt (z : Z) : Z := (z + 2 ^ 63) mod 2 ^ 64 - 2 ^ 63.
Definition toUint32 (z : Z) : Z := z mod 2 ^ 32.

Inductive NumErrKind : Type := ErrSyntax | ErrRange.

(** The values of Go's [error] the allocator can return: its three
    package-level errors, [*strconv.NumError], and whatever the store
    client or the serializer reports (opaque to the allocator). *)
Inductive error : Type :=
| errInvalidKey
| errUnableToAllocateID
| errNoIDallocated
| NumError (fn input : string) (kind : NumErrKind)
| ExternalError (msg : string).

(** A call of an external package returning [(x, err)]: the allocator
    looks at [x] only when [err == nil]. *)
Inductive result (A : Type) : Type :=
| Ok (a : A)
| Err (e : error).
Arguments Ok {A} a.
Arguments Err {A} e.

(** ** The parts of [strings] and [strconv] the allocator calls *)

Module Strings.

(** [cutPrefix s p] is what follows [p] in [s] when [s] starts with [p]. *)
Fixpoint cutPrefix (s p : string) {struct p} : option string :=
  match p with
  | EmptyString => Some s
  | String a p' =>
      match s with
      | EmptyString => None
      | String b s' => if Ascii.eqb a b then cutPrefix s' p' else None
      end
  end.

Definition HasPrefix (s p : string) : bool :=
  match cutPrefix s p with Some _ => true | None => false end.

(** [strings.Replace(s, old, new, 1)]: the leftmost occurrence of [old]
    is replaced. *)
Fixpoint ReplaceFirst (s old new : string) : string :=
  match cutPrefix s old with
  | Some rest => (new ++ rest)%string
  | None =>
      match s with
      | EmptyString => EmptyString
      | String c s' => String c (ReplaceFirst s' old new)
      end
  end.

End Strings.

Module Strconv.

Definition digitChar (d : Z) : ascii := ascii_of_N (Z.to_N (48 + d)).

Definition digitVal (c : ascii) : option Z :=
  let n := Z.of_N (N_of_ascii c) in
  if (48 <=? n) && (n <=? 57) then Some (n - 48) else None.

(** Decimal digits of [u], most significant first, pushed in front of
    [acc]; twenty digits are enough for a [uint64]. *)
Fixpoint formatBits (fuel : nat) (u : Z) (acc : string) : string :=
  match fuel with
  | O => acc
  | S f =>
      let acc' := String (digitChar (u mod 10)) acc in
      if u / 10 =? 0 then acc' else formatBits f (u / 10) acc'
  end.

(** [strconv.FormatUint(u, 10)] *)
Definition FormatUint (u : Z) : string := formatBits 20 u EmptyString.

(** [strconv.Itoa(i)] *)
Definition Itoa (i : Z) : string :=
  if i <? 0 then String "-"%char (FormatUint (- i)) else FormatUint i.

(** The outcome of reading an unsigned numeral. *)
Inductive parsed : Type :=
| Parsed (n : Z)
| BadSyntax
| OutOfRange.

Definition maxUint64 : Z := 2 ^ 64 - 1.

(** The loop of [strconv.ParseUint(s, 10, 64)]: a byte that is no digit
    is a syntax error; a digit that would take the number past
    [maxUint64] is a range error, whatever follows it. *)
Fixpoint parseDigits (s : string) (n : Z) : parsed :=
  match s with
  | EmptyString => Parsed n
  | String c s' =>
      match digitVal c with
      | None => BadSyntax
      | Some d =>
          if n >=? maxUint64 / 10 + 1 then OutOfRange
          else if n * 10 + d >? maxUint64 then OutOfRange
          else parseDigits s' (n * 10 + d)
      end
  end.

(** [strconv.Atoi(s)]: an optional sign, then one or more decimal
    digits; a value that does not fit [int] is a range error. *)
Definition Atoi (s : string) : Z * option error :=
  let syntax := Some (NumError "Atoi" s ErrSyntax) in
  let range := Some (NumError "Atoi" s ErrRange) in
  match s with
  | EmptyString => (0, syntax)
  | String c rest =>
      let neg := Ascii.eqb c "-" in
      let digits := if neg || Ascii.eqb c "+" then rest else s in
      match digits with
      | EmptyString => (0, syntax)
      | _ =>
          match parseDigits digits 0 with
          | BadSyntax => (0, syntax)
          | OutOfRange => if neg then (minInt, range) else (maxInt, range)
          | Parsed un =>
              if neg
              then if un >? 2 ^ 63 then (minInt, range) else (- un, None)
              else if un >=? 2 ^ 63 then (maxInt, range) else (un, None)
          end
      end
  end.

End Strconv.

(** ** Keys *)

Definition allocatedIDsKeyPrefix : string := "allocatedIDs/".
Definition maxAttempts : Z := 10.

Definition extractIndexFromKey (key : string) : Z * option error :=
  if Strings.HasPrefix key allocatedIDsKeyPrefix
  then Strconv.Atoi (Strings.ReplaceFirst key allocatedIDsKeyPrefix EmptyString)
  else (0, Some errInvalidKey).

Definition createKey (index : Z) : string :=
  let str := Strconv.FormatUint index in
  (allocatedIDsKeyPrefix ++ str)%string.

(** ** The first gap *)

(** [for _, v := range ids { if res == v { res++ } else { break } }] *)
Fixpoint firstGapFrom (res : Z) (ids : list Z) : Z :=
  match ids with
  | [] => res
  | v :: rest => if res =? v then firstGapFrom (wrapInt (res + 1)) rest else res
  end.

Definition findFirstAvailableIndex (ids : list Z) : Z := firstGapFrom 1 ids.

(** [sort.Ints]: the ascending rearrangement of the slice. *)
Fixpoint insertInt (x : Z) (l : list Z) : list Z :=
  match l with
  | [] => [x]
  | y :: l' => if x <=? y then x :: l else y :: insertInt x l'
  end.

Fixpoint sortInts (l : list Z) : list Z :=
  match l with
  | [] => []
  | x :: l' => insertInt x (sortInts l')
  end.

(** ** Records and their serialization *)

(** [uid.Identifier] *)
Record Identifier : Type := { Name : string; Id : Z }.

(** The serializer behind [json.Marshal] and [kv.GetValue]: the stored
    form of a record is left abstract. *)
Class Serializer : Type := {
  value : Type;
  Marshal : Identifier -> result value;
  GetValue : value -> result Identifier
}.

(** The records of [label] read back as they were written. *)
Definition ReadsBack {Ser : Serializer} (label : string) : Prop :=
  forall id v,
    Marshal {| Name := label; Id := id |} = Ok v ->
    GetValue v = Ok {| Name := label; Id := id |}.

(** Whatever is written can be read, and reads back with the identifier
    that was written; the name may come back changed. *)
Definition ReadsBackId (Ser : Serializer) : Prop :=
  forall x v,
    Marshal x = Ok v -> exists item, GetValue v = Ok item /\ Id item = Id x.

(** A serializer that stores the record as it is. *)
Definition plainSerializer : Serializer :=
  {| value := Identifier; Marshal := Ok; GetValue := Ok |}.

(** *** The JSON serializer

    [encoding/json] writes a string as valid UTF-8: where the bytes of
    the string do not decode as a rune ([utf8.DecodeRuneInString] gives
    [RuneError] with size 1) it writes the replacement character U+FFFD
    in place of the one byte and goes on with the next byte.  Everything
    else of a name, and the identifier, reads back as written. *)

Definition byteOf (c : ascii) : Z := Z.of_N (N_of_ascii c).

Definition between (lo hi b : Z) : bool := (lo <=? b) && (b <=? hi).

(** The size of the rune that starts with the byte [c] followed by
    [rest], or 0 when the bytes do not decode. *)
Definition runeLen (c : ascii) (rest : string) : nat :=
  let b := byteOf c in
  if b <? 128 then 1
  else if between 194 223 b then
    match rest with
    | String c1 _ => if between 128 191 (byteOf c1) then 2 else 0
    | _ => 0
    end
  else if between 224 239 b then
    match rest with
    | String c1 (String c2 _) =>
        let lo := if b =? 224 then 160 else 128 in
        let hi := if b =? 237 then 159 else 191 in
        if between lo hi (byteOf c1) && between 128 191 (byteOf c2)
        then 3 else 0
    | _ => 0
    end
  else if between 240 244 b then
    match rest with
    | String c1 (String c2 (String c3 _)) =>
        let lo := if b =? 240 then 144 else 128 in
        let hi := if b =? 244 then 143 else 191 in
        if between lo hi (byteOf c1) && between 128 191 (byteOf c2)
           && between 128 191 (byteOf c3)
        then 4 else 0
    | _ => 0
    end
  else 0.

(** U+FFFD in UTF-8: the bytes EF BF BD. *)
Definition replacementChar : string :=
  String (ascii_of_N 239) (String (ascii_of_N 191)
    (String (ascii_of_N 189) EmptyString)).

(** [skip] bytes of a rune already accepted are copied; then each rune
    is copied and each byte that starts none is replaced. *)
Fixpoint coerceFrom (skip : nat) (s : string) : string :=
  match s with
  | EmptyString => EmptyString
  | String c rest =>
      match skip with
      | S k => String c (coerceFrom k rest)
      | O =>
          match runeLen c rest with
          | O => (replacementChar ++ coerceFrom 0 rest)%string
          | S k => String c (coerceFrom k rest)
          end
      end
  end.

Definition coerceUTF8 (s : string) : string := coerceFrom 0 s.

(** A label that is not valid UTF-8: the one byte FF. *)
Definition invalidLabel : string := String (ascii_of_N 255) EmptyString.

(** The stored bytes are the JSON text of a record, or bytes that
    [json.Unmarshal] refuses.  [json.Marshal] of a [uid.Identifier], a
    struct of a string and a [uint32], does not fail. *)
Definition jsonSerializer : Serializer :=
  {| value := option Identifier;
     Marshal := fun x =>
       Ok (Some {| Name := coerceUTF8 (Name x); Id := Id x |});
     GetValue := fun v =>
       match v with
       | Some x => Ok x
       | None => Err (ExternalError "unexpected end of JSON input")
       end |}.

(** ** Allocator state *)

(** The fields of [idAllocator] that are data; [etcd] and [broker] are
    handles of the store, whose operations are the nodes of [Prog]. *)
Record idAllocator : Type := {
  serviceLabel : string;
  allocated : bool;
  ID : Z
}.

Definition newIDAllocator (label : string) : idAllocator :=
  {| serviceLabel := label; allocated := false; ID := 0 |}.

(** ** Programs over the store

    A method of the allocator is a tree whose inner nodes are the calls
    it makes on the store, each labelled with the allocator's memory at
    the time of the call and followed by one subtree per answer.  Keys
    are relative to the agent prefix, which [broker] prepends by itself
    and which [writeIfNotExists] prepends by hand. *)
Section Programs.
Context {Ser : Serializer}.

Inductive Prog (A : Type) : Type :=
| Ret (a : A)
| ListValues (ia : idAllocator) (prefix : string)
    (k : result (list (string * value)) -> Prog A)
| ListKeys (ia : idAllocator) (prefix : string)
    (k : result (list string) -> Prog A)
| PutIfNotExists (ia : idAllocator) (key : string) (data : value)
    (k : result bool -> Prog A)
| Delete (ia : idAllocator) (key : string)
    (k : result bool -> Prog A).

Arguments Ret {A} a.
Arguments ListValues {A} ia prefix k.
Arguments ListKeys {A} ia prefix k.
Arguments PutIfNotExists {A} ia key data k.
Arguments Delete {A} ia key k.

Fixpoint bindProg {A B : Type} (p : Prog A) (f : A -> Prog B) : Prog B :=
  match p with
  | Ret a => f a
  | ListValues ia prefix k => ListValues ia prefix (fun r => bindProg (k r) f)
  | ListKeys ia prefix k => ListKeys ia prefix (fun r => bindProg (k r) f)
  | PutIfNotExists ia key data k =>
      PutIfNotExists ia key data (fun r => bindProg (k r) f)
  | Delete ia key k => Delete ia key (fun r => bindProg (k r) f)
  end.

(** A method body: it reads and writes the receiver [ia]. *)
Definition M (A : Type) : Type := idAllocator -> Prog (A * idAllocator).

Definition ret {A : Type} (a : A) : M A := fun ia => Ret (a, ia).

Definition bind {A B : Type} (m : M A) (f : A -> M B) : M B :=
  fun ia => bindProg (m ia) (fun x => f (fst x) (snd x)).

Definition self : M idAllocator := fun ia => Ret (ia, ia).

Definition setAllocated (b : bool) : M unit :=
  fun ia =>
    Ret (tt, {| serviceLabel := serviceLabel ia; allocated := b; ID := ID ia |}).

Definition setID (id : Z) : M unit :=
  fun ia =>
    Ret (tt, {| serviceLabel := serviceLabel ia; allocated := allocated ia;
                ID := id |}).

Definition brokerListValues (prefix : string) :
  M (result (list (string * value))) :=
  fun ia => ListValues ia prefix (fun r => Ret (r, ia)).

Definition brokerListKeys (prefix : string) : M (result (list string)) :=
  fun ia => ListKeys ia prefix (fun r => Ret (r, ia)).

Definition etcdPutIfNotExists (key : string) (data : value) :
  M (result bool) :=
  fun ia => PutIfNotExists ia key data (fun r => Ret (r, ia)).

Definition brokerDelete (key : string) : M (result bool) :=
  fun ia => Delete ia key (fun r => Ret (r, ia)).

Notation "x <- m ;; k" := (bind m (fun x => k))
  (at level 61, m at next level, right associativity).
Notation "m ;;; k" := (bind m (fun _ => k))
  (at level 61, right associativity).

Definition writeIfNotExists (id : Z) : M (bool * option error) :=
  ia <- self ;;
  let value := {| Name := serviceLabel ia; Id := id |} in
  match Marshal value with
  | Err e => ret (false, Some e)
  | Ok encoded =>
      r <- etcdPutIfNotExists (createKey id) encoded ;;
      match r with
      | Ok succeeded => ret (succeeded, None)
      | Err e => ret (false, Some e)
      end
  end.

(** The loop of [findExistingEntry] over the iterator. *)
Fixpoint scanEntries (label : string) (kvs : list (string * value)) :
  option Identifier * option error :=
  match kvs with
  | [] => (None, None)
  | kv :: rest =>
      match GetValue (snd kv) with
      | Err e => (None, Some e)
      | Ok item =>
          if String.eqb (Name item) label then (Some item, None)
          else scanEntries label rest
      end
  end.

Definition findExistingEntry : M (option Identifier * option error) :=
  ia <- self ;;
  r <- brokerListValues allocatedIDsKeyPrefix ;;
  match r with
  | Err e => ret (None, Some e)
  | Ok it => ret (scanEntries (serviceLabel ia) it)
  end.

(** The loop of [listAllIDs] over the iterator. *)
Fixpoint collectIDs (keys : list string) (ids : list Z) :
  list Z * option error :=
  match keys with
  | [] => (ids, None)
  | key :: rest =>
      match extractIndexFromKey key with
      | (_, Some e) => ([], Some e)
      | (id, None) => collectIDs rest (ids ++ [id])
      end
  end.

Definition listAllIDs : M (list Z * option error) :=
  r <- brokerListKeys allocatedIDsKeyPrefix ;;
  match r with
  | Err e => ret ([], Some e)
  | Ok it => ret (collectIDs it [])
  end.

(** The [for] loop of [getID].  It has no bound of its own: it ends
    when [attempts] passes [maxAttempts], which [fuel] only has to
    outlast ([allocLoop_fuel] below shows that it does). *)
Fixpoint allocLoop (fuel : nat) (attempts : Z) : M (Z * option error) :=
  match fuel with
  | O => ret (0, Some errUnableToAllocateID)
  | S fuel' =>
      l <- listAllIDs ;;
      match snd l with
      | Some e => ret (0, Some e)
      | None =>
          let ids := sortInts (fst l) in
          let attempts := wrapInt (attempts + 1) in
          setID (toUint32 (findFirstAvailableIndex ids)) ;;;
          ia <- self ;;
          w <- writeIfNotExists (ID ia) ;;
          match snd w with
          | Some e => ret (0, Some e)
          | None =>
              if fst w
              then setAllocated true ;;;
                   ia <- self ;;
                   ret (ID ia, None)
              else if attempts >? maxAttempts
                   then ret (0, Some errUnableToAllocateID)
                   else allocLoop fuel' attempts
          end
      end
  end.

Definition getID : M (Z * option error) :=
  ia <- self ;;
  if allocated ia then ret (ID ia, None)
  else
    f <- findExistingEntry ;;
    match snd f with
    | Some e => ret (0, Some e)
    | None =>
        match fst f with
        | Some existingEntry =>
            setAllocated true ;;;
            setID (Id existingEntry) ;;;
            ia <- self ;;
            ret (ID ia, None)
        | None => allocLoop (S (Z.to_nat maxAttempts)) 0
        end
    end.

Definition releaseID : M (option error) :=
  ia <- self ;;
  if negb (allocated ia) then ret (Some errNoIDallocated)
  else
    r <- brokerDelete (createKey (ID ia)) ;;
    match r with
    | Ok _ => setAllocated false ;;; ret None
    | Err e => ret (Some e)
    end.

(** ** Running a program against a store *)

(** A store client: each operation answers and moves the world on.
    The world may hold other writers, failures, anything. *)
Record Store (W : Type) : Type := {
  doListValues : string -> W -> result (list (string * value)) * W;
  doListKeys : string -> W -> result (list string) * W;
  doPutIfNotExists : string -> value -> W -> result bool * W;
  doDelete : string -> W -> result bool * W
}.

Arguments doListValues {W} _ _ _.
Arguments doListKeys {W} _ _ _.
Arguments doPutIfNotExists {W} _ _ _ _.
Arguments doDelete {W} _ _ _.

Inductive event : Type :=
| EvListValues (prefix : string) (r : result (list (string * value)))
| EvListKeys (prefix : string) (r : result (list string))
| EvPutIfNotExists (key : string) (data : value) (r : result bool)
| EvDelete (key : string) (r : result bool).

(** The value returned, the world left behind and the calls made. *)
Fixpoint run {W A : Type} (st : Store W) (p : Prog A) (w : W) :
  A * W * list event :=
  match p with
  | Ret a => (a, w, [])
  | ListValues _ prefix k =>
      let (r, w1) := doListValues st prefix w in
      let '(a, w2, tr) := run st (k r) w1 in
      (a, w2, EvListValues prefix r :: tr)
  | ListKeys _ prefix k =>
      let (r, w1) := doListKeys st prefix w in
      let '(a, w2, tr) := run st (k r) w1 in
      (a, w2, EvListKeys prefix r :: tr)
  | PutIfNotExists _ key data k =>
      let (r, w1) := doPutIfNotExists st key data w in
      let '(a, w2, tr) := run st (k r) w1 in
      (a, w2, EvPutIfNotExists key data r :: tr)
  | Delete _ key k =>
      let (r, w1) := doDelete st key w in
      let '(a, w2, tr) := run st (k r) w1 in
      (a, w2, EvDelete key r :: tr)
  end.

Definition isWrite (ev : event) : bool :=
  match ev with EvPutIfNotExists _ _ _ => true | _ => false end.

Definition eventError (ev : event) : option error :=
  match ev with
  | EvListValues _ (Err e) | EvListKeys _ (Err e)
  | EvPutIfNotExists _ _ (Err e) | EvDelete _ (Err e) => Some e
  | _ => None
  end.

End Programs.

Arguments Ret {Ser A} a.
Arguments ListValues {Ser A} ia prefix k.
Arguments ListKeys {Ser A} ia prefix k.
Arguments PutIfNotExists {Ser A} ia key data k.
Arguments Delete {Ser A} ia key k.
Arguments doListValues {Ser W} _ _ _.
Arguments doListKeys {Ser W} _ _ _.
Arguments doPutIfNotExists {Ser W} _ _ _ _.
Arguments doDelete {Ser W} _ _ _.

(** ** A store in memory

    The keys and values of the store in listing order.  An operation
    that is served never fails and takes effect at once. *)
Section MemStore.
Context {Ser : Serializer}.

Definition kvstore : Type := list (string * value).

Fixpoint lookup (key : string) (w : kvstore) : option value :=
  match w with
  | [] => None
  | kv :: rest => if String.eqb (fst kv) key then Some (snd kv) else lookup key rest
  end.

Definition under (prefix : string) (kv : string * value) : bool :=
  Strings.HasPrefix (fst kv) prefix.

Definition memListValues (prefix : string) (w : kvstore) :
  result (list (string * value)) * kvstore :=
  (Ok (filter (under prefix) w), w).

Definition memListKeys (prefix : string) (w : kvstore) :
  result (list string) * kvstore :=
  (Ok (map fst (filter (under prefix) w)), w).

Definition memPutIfNotExists (key : string) (data : value) (w : kvstore) :
  result bool * kvstore :=
  match lookup key w with
  | Some _ => (Ok false, w)
  | None => (Ok true, w ++ [(key, data)])
  end.

Definition memDelete (key : string) (w : kvstore) : result bool * kvstore :=
  (Ok (match lookup key w with Some _ => true | None => false end),
   filter (fun kv => negb (String.eqb (fst kv) key)) w).

Definition memStore : Store kvstore :=
  {| doListValues := memListValues;
     doListKeys := memListKeys;
     doPutIfNotExists := memPutIfNotExists;
     doDelete := memDelete |}.

(** ** A cluster of allocators on one store

    One allocator per service label.  A node is idle or inside a call;
    the mutex of [idAllocator] lets it be inside one call only.  The
    steps of different nodes interleave at the operations of the store,
    each of which is served atomically; when the client reports a
    failure the operation has not been performed ([Serve] with a
    failure) or has been performed all the same ([Unacknowledged]). *)

Inductive retval : Type :=
| GetIDRet (id : Z) (err : option error)
| ReleaseIDRet (err : option error).

Definition inCall {A : Type} (f : A -> retval) (p : Prog (A * idAllocator)) :
  Prog (retval * idAllocator) :=
  bindProg p (fun x => Ret (f (fst x), snd x)).

Inductive node : Type :=
| Idle (ia : idAllocator)
| Running (p : Prog (retval * idAllocator)).

(** The allocator's memory as it is at this point of the call. *)
Definition memory (n : node) : idAllocator :=
  match n with
  | Idle ia => ia
  | Running (Ret x) => snd x
  | Running (ListValues ia _ _) => ia
  | Running (ListKeys ia _ _) => ia
  | Running (PutIfNotExists ia _ _ _) => ia
  | Running (Delete ia _ _) => ia
  end.

Record cluster : Type := {
  store : kvstore;
  nodes : string -> node;
  returned : list (string * retval)
}.

Definition startCluster : cluster :=
  {| store := [];
     nodes := fun label => Idle (newIDAllocator label);
     returned := [] |}.

Definition setNode (c : cluster) (label : string) (n : node) : string -> node :=
  fun l => if String.eqb l label then n else nodes c l.

Inductive action : Type :=
| CallGetID (label : string)
| CallReleaseID (label : string)
| Serve (label : string) (failure : option error)
| Unacknowledged (label : string) (e : error)
| Return (label : string)
| Restart (label : string).

(** The store serves the pending operation of [p], or the client fails
    with [e] and the store stays as it is. *)
Definition serve (failure : option error) (p : Prog (retval * idAllocator))
  (w : kvstore) : option (Prog (retval * idAllocator) * kvstore) :=
  match p with
  | Ret _ => None
  | ListValues _ prefix k =>
      match failure with
      | Some e => Some (k (Err e), w)
      | None => let (r, w') := memListValues prefix w in Some (k r, w')
      end
  | ListKeys _ prefix k =>
      match failure with
      | Some e => Some (k (Err e), w)
      | None => let (r, w') := memListKeys prefix w in Some (k r, w')
      end
  | PutIfNotExists _ key data k =>
      match failure with
      | Some e => Some (k (Err e), w)
      | None => let (r, w') := memPutIfNotExists key data w in Some (k r, w')
      end
  | Delete _ key k =>
      match failure with
      | Some e => Some (k (Err e), w)
      | None => let (r, w') := memDelete key w in Some (k r, w')
      end
  end.

(** The store performs the pending operation of [p] but the answer is
    lost: the client fails with [e]. *)
Definition serveLost (e : error) (p : Prog (retval * idAllocator))
  (w : kvstore) : option (Prog (retval * idAllocator) * kvstore) :=
  match p with
  | Ret _ => None
  | ListValues _ _ k => Some (k (Err e), w)
  | ListKeys _ _ k => Some (k (Err e), w)
  | PutIfNotExists _ key data k =>
      Some (k (Err e), snd (memPutIfNotExists key data w))
  | Delete _ key k => Some (k (Err e), snd (memDelete key w))
  end.

Definition step (c : cluster) (a : action) : option cluster :=
  match a with
  | CallGetID label =>
      match nodes c label with
      | Idle ia =>
          Some {| store := store c;
                  nodes := setNode c label
                             (Running (inCall (fun r => GetIDRet (fst r) (snd r))
                                         (getID ia)));
                  returned := returned c |}
      | Running _ => None
      end
  | CallReleaseID label =>
      match nodes c label with
      | Idle ia =>
          Some {| store := store c;
                  nodes := setNode c label
                             (Running (inCall ReleaseIDRet (releaseID ia)));
                  returned := returned c |}
      | Running _ => None
      end
  | Serve label failure =>
      match nodes c label with
      | Idle _ => None
      | Running p =>
          match serve failure p (store c) with
          | None => None
          | Some (p', w') =>
              Some {| store := w';
                      nodes := setNode c label (Running p');
                      returned := returned c |}
          end
      end
  | Unacknowledged label e =>
      match nodes c label with
      | Idle _ => None
      | Running p =>
          match serveLost e p (store c) with
          | None => None
          | Some (p', w') =>
              Some {| store := w';
                      nodes := setNode c label (Running p');
                      returned := returned c |}
          end
      end
  | Return label =>
      match nodes c label with
      | Running (Ret x) =>
          Some {| store := store c;
                  nodes := setNode c label (Idle (snd x));
                  returned := returned c ++ [(label, fst x)] |}
      | _ => None
      end
  | Restart label =>
      Some {| store := store c;
              nodes := setNode c label (Idle (newIDAllocator label));
              returned := returned c |}
  end.

Fixpoint execute (c : cluster) (schedule : list action) : option cluster :=
  match schedule with
  | [] => Some c
  | a :: rest =>
      match step c a with
      | Some c' => execute c' rest
      | None => None
      end
  end.

Definition isAcquire (a : action) : bool :=
  match a with
  | CallReleaseID _ | Restart _ => false
  | _ => true
  end.

(** The allocator an action is about. *)
Definition actor (a : action) : string :=
  match a with
  | CallGetID label | CallReleaseID label | Serve label _
  | Unacknowledged label _ | Return label | Restart label => label
  end.

(** No answer of the store is lost. *)
Definition acknowledged (a : action) : bool :=
  match a with
  | Unacknowledged _ _ => false
  | _ => true
  end.

End MemStore.

(** The store after the allocator labelled with the byte FF has taken
    identifier 1: the name of its record reads U+FFFD. *)
Definition coercedStore : @kvstore jsonSerializer :=
  [(createKey 1, Some {| Name := replacementChar; Id := 1 |})].

(** The allocator labelled with the byte FF acquires, then the allocator
    labelled U+FFFD does. *)
Definition collisionSchedule : list action :=
  [CallGetID invalidLabel; Serve invalidLabel None; Serve invalidLabel None;
   Serve invalidLabel None; Return invalidLabel;
   CallGetID replacementChar; Serve replacementChar None;
   Return replacementChar].

(** ** A store under contention

    Whenever the allocator tries to create a key that is free, a rival
    creates it first; records are stored as they are. *)
Definition rivalPutIfNotExists (key : string) (data : Identifier)
  (w : @kvstore plainSerializer) : result bool * @kvstore plainSerializer :=
  match @lookup plainSerializer key w with
  | Some _ => (Ok false, w)
  | None =>
      (Ok false,
       w ++ [(key, {| Name := "rival"; Id := fst (extractIndexFromKey key) |})])
  end.

Definition contendedStore : @Store plainSerializer (@kvstore plainSerializer) :=
  {| doListValues := @memListValues plainSerializer;
     doListKeys := @memListKeys plainSerializer;
     doPutIfNotExists := rivalPutIfNotExists;
     doDelete := @memDelete plainSerializer |}.

(** ** Vocabulary of the properties *)

(** The slice [1, 2, ..., n]. *)
Definition oneTo (n : nat) : list Z := map Z.of_nat (seq 1 n).

(** [g] is the least positive integer that [ids] does not hold. *)
Definition leastMissing (ids : list Z) (g : Z) : Prop :=
  1 <= g /\ ~ In g ids /\ forall m, 1 <= m -> ~ In m ids -> g <= m.

Section Paths.
Context {Ser : Serializer}.

(** [Paths p Q]: whatever the store answers, the calls [p] makes and
    the value it returns satisfy [Q]. *)
Fixpoint Paths {A : Type} (p : Prog A) (Q : list event -> A -> Prop) : Prop :=
  match p with
  | Ret a => Q [] a
  | ListValues _ prefix k =>
      forall r, Paths (k r) (fun tr => Q (EvListValues prefix r :: tr))
  | ListKeys _ prefix k =>
      forall r, Paths (k r) (fun tr => Q (EvListKeys prefix r :: tr))
  | PutIfNotExists _ key data k =>
      forall r, Paths (k r) (fun tr => Q (EvPutIfNotExists key data r :: tr))
  | Delete _ key k =>
      forall r, Paths (k r) (fun tr => Q (EvDelete key r :: tr))
  end.

(** A conditional write that lost: not created, no error. *)
Definition isLostWrite (ev : event) : bool :=
  match ev with EvPutIfNotExists _ _ (Ok false) => true | _ => false end.

Definition isListKeys (ev : event) : bool :=
  match ev with EvListKeys _ _ => true | _ => false end.

Definition isListValuesOk (ev : event) : bool :=
  match ev with EvListValues _ (Ok _) => true | _ => false end.

Definition writes (tr : list event) : nat := List.length (filter isWrite tr).

Definition lostWrites (tr : list event) : nat :=
  List.length (filter isLostWrite tr).

(** A call that failed is the last call, and [ret] is identifier 0 with
    that call's error. *)
Fixpoint abortsOnError (tr : list event) (ret : Z * option error) : Prop :=
  match tr with
  | [] => True
  | ev :: tr' =>
      match eventError ev with
      | Some e => tr' = [] /\ ret = (0, Some e)
      | None => abortsOnError tr' ret
      end
  end.

(** A listing of the keys comes right after a lost write. *)
Fixpoint retriesAfterLostWrite (tr : list event) : Prop :=
  match tr with
  | [] => True
  | ev :: tr' =>
      match tr' with
      | ev' :: _ => isListKeys ev' = true -> isLostWrite ev = true
      | [] => True
      end /\ retriesAfterLostWrite tr'
  end.

(** What every run of the allocation loop entered with [attempts]
    satisfies. *)
Definition LoopPost (attempts : Z) (tr : list event)
  (x : Z * option error * idAllocator) : Prop :=
  abortsOnError tr (fst x) /\
  retriesAfterLostWrite tr /\
  Z.of_nat (writes tr) <= maxAttempts + 1 - attempts /\
  (Z.of_nat (lostWrites tr) = maxAttempts + 1 - attempts ->
   fst x = (0, Some errUnableToAllocateID)) /\
  (snd (fst x) = None ->
   allocated (snd x) = true /\ ID (snd x) = fst (fst x)).

(** What every run of [getID] satisfies. *)
Definition GetIDPost (tr : list event) (x : Z * option error * idAllocator) :
  Prop :=
  abortsOnError tr (fst x) /\
  match tr with
  | [] => True
  | ev :: tr' =>
      match tr' with
      | ev' :: _ => isListKeys ev' = true -> isListValuesOk ev = true
      | [] => True
      end /\ retriesAfterLostWrite tr'
  end /\
  Z.of_nat (writes tr) <= maxAttempts + 1 /\
  (Z.of_nat (lostWrites tr) = maxAttempts + 1 ->
   fst x = (0, Some errUnableToAllocateID)) /\
  (snd (fst x) = None ->
   allocated (snd x) = true /\ ID (snd x) = fst (fst x)).

(** The allocator's memory after a release. *)
Definition released (ia : idAllocator) : idAllocator :=
  {| serviceLabel := serviceLabel ia; allocated := false; ID := ID ia |}.

(** The allocator's memory once it holds [id]. *)
Definition holding (ia : idAllocator) (id : Z) : idAllocator :=
  {| serviceLabel := serviceLabel ia; allocated := true; ID := id |}.

End Paths.

(** A store that cannot be reached. *)
Definition unreachableStore {Ser : Serializer} : Store unit :=
  let e := ExternalError "context deadline exceeded" in
  {| doListValues := fun _ w => (Err e, w);
     doListKeys := fun _ w => (Err e, w);
     doPutIfNotExists := fun _ _ w => (Err e, w);
     doDelete := fun _ w => (Err e, w) |}.

(** ** What a call promises to the cluster *)

Section Protocol.
Context {Ser : Serializer}.

Definition progMemory (p : Prog (retval * idAllocator)) : idAllocator :=
  memory (Running p).

(** [Safe label p]: at every call on the store that [p] can reach, the
    allocator of [label] holds an identifier only if the store has just
    told it that the identifier's key carries its record. *)
Fixpoint Safe (label : string) (p : Prog (retval * idAllocator)) : Prop :=
  match p with
  | Ret x =>
      serviceLabel (snd x) = label /\
      match fst x with
      | GetIDRet id None => allocated (snd x) = true /\ ID (snd x) = id
      | _ => True
      end
  | ListValues ia _ k =>
      serviceLabel ia = label /\ allocated ia = false /\
      forall r,
        Safe label (k r) /\
        (allocated (progMemory (k r)) = true ->
         exists kvs kv item,
           r = Ok kvs /\ In kv kvs /\ GetValue (snd kv) = Ok item /\
           Name item = label /\ Id item = ID (progMemory (k r)))
  | ListKeys ia _ k =>
      serviceLabel ia = label /\ allocated ia = false /\
      forall r, Safe label (k r) /\ allocated (progMemory (k r)) = false
  | PutIfNotExists ia key data k =>
      serviceLabel ia = label /\ allocated ia = false /\
      exists id,
        key = createKey id /\
        GetValue data = Ok {| Name := label; Id := id |} /\
        forall r,
          Safe label (k r) /\
          (allocated (progMemory (k r)) = true ->
           r = Ok true /\ ID (progMemory (k r)) = id)
  | Delete ia key k =>
      serviceLabel ia = label /\ allocated ia = true /\
      key = createKey (ID ia) /\
      forall r,
        Safe label (k r) /\
        match r with
        | Ok _ => allocated (progMemory (k r)) = false
        | Err _ => progMemory (k r) = ia
        end
  end.

(** [p] never deletes. *)
Fixpoint Acquiring (p : Prog (retval * idAllocator)) : Prop :=
  match p with
  | Ret _ => True
  | ListValues _ _ k => forall r, Acquiring (k r)
  | ListKeys _ _ k => forall r, Acquiring (k r)
  | PutIfNotExists _ _ _ k => forall r, Acquiring (k r)
  | Delete _ _ _ => False
  end.

(** The store carries the record of the identifier [ia] holds. *)
Definition holds (w : kvstore) (ia : idAllocator) : Prop :=
  allocated ia = true ->
  exists v,
    lookup (createKey (ID ia)) w = Some v /\
    GetValue v = Ok {| Name := serviceLabel ia; Id := ID ia |}.

Definition nodeSafe (label : string) (n : node) : Prop :=
  match n with
  | Idle ia => serviceLabel ia = label
  | Running p => Safe label p
  end.

Definition nodeAcquiring (n : node) : Prop :=
  match n with
  | Idle _ => True
  | Running p => Acquiring p
  end.

(** The invariant of the cluster. *)
Definition Inv (c : cluster) : Prop :=
  NoDup (map fst (store c)) /\
  (forall key v,
     In (key, v) (store c) ->
     exists item, GetValue v = Ok item /\ key = createKey (Id item)) /\
  (forall label,
     nodeSafe label (nodes c label) /\
     holds (store c) (memory (nodes c label))).

(** The invariant of a cluster in which nobody releases or restarts. *)
Definition AcqInv (c : cluster) : Prop :=
  Inv c /\
  (forall label, nodeAcquiring (nodes c label)) /\
  (forall label id,
     In (label, GetIDRet id None) (returned c) ->
     allocated (memory (nodes c label)) = true /\
     ID (memory (nodes c label)) = id).

End Protocol.

From Stdlib Require Import Permutation.

(** ** Further vocabulary *)

(** The identifier [getID] tries next when the store lists [ids]. *)
Definition candidate (ids : list Z) : Z :=
  toUint32 (findFirstAvailableIndex (sortInts ids)).

Section FurtherVocabulary.
Context {Ser : Serializer}.

(** Every record of the listing is readable and belongs to somebody
    other than [label]. *)
Definition noRecordOf (label : string) (kvs : list (string * value)) : Prop :=
  Forall (fun kv => exists item,
              GetValue (snd kv) = Ok item /\ Name item <> label) kvs.

(** The calls [getID] of the allocator [label] may make: listings under
    the prefix, and conditional writes of a record of [label] under the
    key of the record's identifier. *)
Definition getIDCall (label : string) (ev : event) : Prop :=
  match ev with
  | EvListValues prefix _ | EvListKeys prefix _ =>
      prefix = allocatedIDsKeyPrefix
  | EvPutIfNotExists key data _ =>
      exists id,
        isUint32 id /\ key = createKey id /\
        Marshal {| Name := label; Id := id |} = Ok data
  | EvDelete _ _ => False
  end.

(** What every run of the allocation loop entered with [attempts] by an
    allocator that holds nothing satisfies, beyond [LoopPost]. *)
Definition LoopUse (ia : idAllocator) (attempts : Z) (tr : list event)
  (x : Z * option error * idAllocator) : Prop :=
  serviceLabel (snd x) = serviceLabel ia /\
  (forall e, snd (fst x) = Some e ->
             fst (fst x) = 0 /\ allocated (snd x) = false) /\
  Z.of_nat (List.length tr) <= 2 * (maxAttempts + 1 - attempts) /\
  Forall (getIDCall (serviceLabel ia)) tr.

(** What every run of [getID] satisfies, beyond [GetIDPost]. *)
Definition GetIDUse (ia : idAllocator) (tr : list event)
  (x : Z * option error * idAllocator) : Prop :=
  serviceLabel (snd x) = serviceLabel ia /\
  (forall e, snd (fst x) = Some e ->
             fst (fst x) = 0 /\ allocated (snd x) = false) /\
  Z.of_nat (List.length tr) <= 2 * (maxAttempts + 1) + 1 /\
  Forall (getIDCall (serviceLabel ia)) tr.

End FurtherVocabulary.

Section Owners.
Context {Ser : Serializer}.

(** The call is in the allocation loop of [getID]: its next operation
    is the listing of the keys or the conditional write. *)
Definition inLoop (p : Prog (retval * idAllocator)) : bool :=
  match p with
  | ListKeys _ _ _ | PutIfNotExists _ _ _ _ => true
  | _ => false
  end.

(** [Discovers label p]: [p] enters the allocation loop only after a
    listing of the values that showed no record of [label], and leaves
    it when its write has created the record. *)
Fixpoint Discovers (label : string) (p : Prog (retval * idAllocator)) : Prop :=
  match p with
  | Ret _ => True
  | ListValues _ prefix k =>
      prefix = allocatedIDsKeyPrefix /\
      forall r,
        Discovers label (k r) /\
        (inLoop (k r) = true -> exists kvs, r = Ok kvs /\ noRecordOf label kvs)
  | ListKeys _ _ k => forall r, Discovers label (k r)
  | PutIfNotExists _ _ _ k =>
      forall r, Discovers label (k r) /\ (r = Ok true -> inLoop (k r) = false)
  | Delete _ _ k => forall r, Discovers label (k r) /\ inLoop (k r) = false
  end.

Definition nodeDiscovers (label : string) (n : node) : Prop :=
  match n with
  | Idle _ => True
  | Running p => Discovers label p
  end.

Definition nodeInLoop (n : node) : bool :=
  match n with
  | Idle _ => false
  | Running p => inLoop p
  end.

(** No two records of the store carry the same name. *)
Definition oneRecordPerName (w : kvstore) : Prop :=
  forall key1 v1 item1 key2 v2 item2,
    In (key1, v1) w -> In (key2, v2) w ->
    GetValue v1 = Ok item1 -> GetValue v2 = Ok item2 ->
    Name item1 = Name item2 -> key1 = key2.

(** The store has no record named [label]. *)
Definition noRecordNamed (w : kvstore) (label : string) : Prop :=
  forall key v item,
    In (key, v) w -> GetValue v = Ok item -> Name item <> label.

(** The invariant of the cluster about the owners of the records. *)
Definition OwnInv (c : cluster) : Prop :=
  Inv c /\
  oneRecordPerName (store c) /\
  (forall label,
     nodeDiscovers label (nodes c label) /\
     (nodeInLoop (nodes c label) = true -> noRecordNamed (store c) label)).

End Owners.

Section Records.
Context {Ser : Serializer}.

(** [Canonical p]: every conditional write that [p] can reach puts a
    readable record under the key of the record's own identifier. *)
Fixpoint Canonical (p : Prog (retval * idAllocator)) : Prop :=
  match p with
  | Ret _ => True
  | ListValues _ _ k => forall r, Canonical (k r)
  | ListKeys _ _ k => forall r, Canonical (k r)
  | PutIfNotExists _ key data k =>
      (exists item, GetValue data = Ok item /\ key = createKey (Id item)) /\
      forall r, Canonical (k r)
  | Delete _ _ k => forall r, Canonical (k r)
  end.

Definition nodeCanonical (n : node) : Prop :=
  match n with
  | Idle _ => True
  | Running p => Canonical p
  end.

(** The keys of the store are pairwise different and every record sits
    under the key of its own identifier. *)
Definition canonicalStore (w : kvstore) : Prop :=
  NoDup (map fst w) /\
  forall key v,
    In (key, v) w ->
    exists item, GetValue v = Ok item /\ key = createKey (Id item).

Definition CanonInv (c : cluster) : Prop :=
  canonicalStore (store c) /\ forall label, nodeCanonical (nodes c label).

End Records.

(** A schedule with a lost race, a release, a restart and a call left
    in the allocation loop: "a" and "b" both go for identifier 1, "b"
    wins and "a" takes 2; "b" releases; "a" restarts and finds its
    record again; "c" has listed the values and not yet the keys. *)
Definition busySchedule : list action :=
  [CallGetID "a"; Serve "a" None; Serve "a" None;
   CallGetID "b"; Serve "b" None; Serve "b" None; Serve "b" None;
   Serve "a" None; Serve "a" None; Serve "a" None;
   Return "a"; Return "b";
   CallReleaseID "b"; Serve "b" None; Return "b";
   Restart "a"; CallGetID "a"; Serve "a" None; Return "a";
   CallGetID "c"; Serve "c" None].

(** The answer of the store to a release is lost: "a" acquires
    identifier 1 and releases it, the store deletes the record but the
    client of "a" reports the failure [e]; then "b" acquires. *)
Definition lostReleaseSchedule (e : error) : list action :=
  [CallGetID "a"; Serve "a" None; Serve "a" None; Serve "a" None;
   Return "a";
   CallReleaseID "a"; Unacknowledged "a" e; Return "a";
   CallGetID "b"; Serve "b" None; Serve "b" None; Serve "b" None;
   Return "b"].

(** The answer of the store to a write is lost: the store creates the
    record of "a" but the client of "a" reports the failure [e]; "b"
    acquires; then "a" acquires again. *)
Definition lostWriteSchedule (e : error) : list action :=
  [CallGetID "a"; Serve "a" None; Serve "a" None; Unacknowledged "a" e;
   Return "a";
   CallGetID "b"; Serve "b" None; Serve "b" None; Serve "b" None;
   Return "b";
   CallGetID "a"; Serve "a" None; Return "a"].


(** * Properties *)

(** ** Prefixes and decimal numerals *)

Module StringFacts.
Import Strings.

Lemma cutPrefix_app (p r : string) : cutPrefix (p ++ r) p = Some r.
Proof.
  induction p as [|a p IH]; simpl.
  - reflexivity.
  - now rewrite Ascii.eqb_refl.
Qed.

Lemma cutPrefix_Some (p : string) :
  forall s r, cutPrefix s p = Some r -> s = (p ++ r)%string.
Proof.
  induction p as [|a p IH]; simpl; intros s r H.
  - now inversion H.
  - destruct s as [|b s]; [discriminate|].
    destruct (Ascii.eqb a b) eqn:E; [|discriminate].
    apply Ascii.eqb_eq in E. subst b. f_equal. now apply IH.
Qed.

Lemma HasPrefix_true (s p : string) :
  HasPrefix s p = true <-> exists r, s = (p ++ r)%string.
Proof.
  unfold HasPrefix. split.
  - destruct (cutPrefix s p) as [r|] eqn:E; [|discriminate].
    intros _. exists r. now apply cutPrefix_Some.
  - intros [r ->]. now rewrite cutPrefix_app.
Qed.

Lemma HasPrefix_false (s p : string) :
  (forall r, s <> (p ++ r)%string) -> HasPrefix s p = false.
Proof.
  intros H. destruct (HasPrefix s p) eqn:E; [|reflexivity].
  apply HasPrefix_true in E. destruct E as [r E]. now elim (H r).
Qed.

Lemma ReplaceFirst_eq (s old new : string) :
  ReplaceFirst s old new =
  match cutPrefix s old with
  | Some rest => (new ++ rest)%string
  | None =>
      match s with
      | EmptyString => EmptyString
      | String c s' => String c (ReplaceFirst s' old new)
      end
  end.
Proof. destruct s; reflexivity. Qed.

Lemma ReplaceFirst_prefix (p r : string) :
  ReplaceFirst (p ++ r) p EmptyString = r.
Proof. rewrite ReplaceFirst_eq, cutPrefix_app. reflexivity. Qed.

End StringFacts.

Module StrconvFacts.
Import Strconv.

Lemma digit_cases (d : Z) :
  0 <= d <= 9 ->
  d = 0 \/ d = 1 \/ d = 2 \/ d = 3 \/ d = 4 \/
  d = 5 \/ d = 6 \/ d = 7 \/ d = 8 \/ d = 9.
Proof. lia. Qed.

Ltac each_digit H :=
  apply digit_cases in H;
  repeat (destruct H as [H|H]; [subst; reflexivity|]); subst; reflexivity.

Lemma digitVal_digitChar (d : Z) :
  0 <= d <= 9 -> digitVal (digitChar d) = Some d.
Proof. intros H. each_digit H. Qed.

Lemma digitChar_not_minus (d : Z) :
  0 <= d <= 9 -> Ascii.eqb (digitChar d) "-" = false.
Proof. intros H. each_digit H. Qed.

Lemma digitChar_not_plus (d : Z) :
  0 <= d <= 9 -> Ascii.eqb (digitChar d) "+" = false.
Proof. intros H. each_digit H. Qed.

Lemma parseDigits_step (d n : Z) (s : string) :
  0 <= d <= 9 -> 0 <= n -> n * 10 + d <= maxUint64 ->
  parseDigits (String (digitChar d) s) n = parseDigits s (n * 10 + d).
Proof.
  intros Hd Hn Hm. cbn [parseDigits]. rewrite digitVal_digitChar by lia.
  unfold maxUint64 in *.
  change (2 ^ 64 - 1) with 18446744073709551615 in *.
  change (18446744073709551615 / 10 + 1) with 1844674407370955162.
  destruct (Z.geb_spec n 1844674407370955162); [lia|].
  destruct (Z.gtb_spec (n * 10 + d) 18446744073709551615); [lia|].
  reflexivity.
Qed.

(** Reading back what [formatBits] wrote gives the number written. *)
Lemma parseDigits_formatBits (f : nat) :
  forall u acc,
    0 <= u < 10 ^ Z.of_nat (S f) ->
    u <= maxUint64 ->
    parseDigits (formatBits (S f) u acc) 0 = parseDigits acc u.
Proof.
  induction f as [|f IH]; intros u acc Hu Hmax.
  - change (10 ^ Z.of_nat 1) with 10 in Hu.
    cbn [formatBits]. rewrite Z.div_small by lia. cbn [Z.eqb].
    rewrite Z.mod_small by lia.
    rewrite parseDigits_step by (unfold maxUint64 in *; lia).
    f_equal.
  - assert (Hm : 0 <= u mod 10 < 10) by (apply Z.mod_pos_bound; lia).
    assert (Hd : u = 10 * (u / 10) + u mod 10) by (apply Z.div_mod; lia).
    assert (Hq : 0 <= u / 10) by (apply Z.div_pos; lia).
    change (formatBits (S (S f)) u acc)
      with (if u / 10 =? 0 then String (digitChar (u mod 10)) acc
            else formatBits (S f) (u / 10) (String (digitChar (u mod 10)) acc)).
    destruct (u / 10 =? 0) eqn:E.
    + apply Z.eqb_eq in E.
      rewrite parseDigits_step by (unfold maxUint64 in *; lia).
      f_equal. lia.
    + apply Z.eqb_neq in E.
      rewrite IH.
      * rewrite parseDigits_step by lia. f_equal. lia.
      * split; [exact Hq|].
        apply Z.div_lt_upper_bound; [lia|].
        replace (Z.of_nat (S (S f))) with (Z.succ (Z.of_nat (S f))) in Hu by lia.
        rewrite Z.pow_succ_r in Hu by lia. lia.
      * lia.
Qed.

(** A numeral starts with a digit. *)
Lemma formatBits_head (f : nat) :
  forall u acc,
    0 <= u ->
    exists d rest,
      0 <= d <= 9 /\ formatBits (S f) u acc = String (digitChar d) rest.
Proof.
  induction f as [|f IH]; intros u acc Hu.
  - assert (Hm : 0 <= u mod 10 < 10) by (apply Z.mod_pos_bound; lia).
    exists (u mod 10), acc. split; [lia|].
    cbn [formatBits]. now destruct (u / 10 =? 0).
  - assert (Hm : 0 <= u mod 10 < 10) by (apply Z.mod_pos_bound; lia).
    change (formatBits (S (S f)) u acc)
      with (if u / 10 =? 0 then String (digitChar (u mod 10)) acc
            else formatBits (S f) (u / 10) (String (digitChar (u mod 10)) acc)).
    destruct (u / 10 =? 0).
    + exists (u mod 10), acc. split; [lia|reflexivity].
    + apply IH. apply Z.div_pos; lia.
Qed.

Lemma parseDigits_FormatUint (u : Z) :
  0 <= u <= 2 ^ 63 -> parseDigits (FormatUint u) 0 = Parsed u.
Proof.
  intros Hu. unfold FormatUint. rewrite parseDigits_formatBits.
  - reflexivity.
  - change (10 ^ Z.of_nat 20) with 100000000000000000000.
    change (2 ^ 63) with 9223372036854775808 in Hu. lia.
  - unfold maxUint64. change (2 ^ 63) with 9223372036854775808 in Hu.
    change (2 ^ 64 - 1) with 18446744073709551615. lia.
Qed.

Lemma Atoi_FormatUint (u : Z) :
  0 <= u <= maxInt -> Atoi (FormatUint u) = (u, None).
Proof.
  intros Hu. unfold maxInt in Hu.
  assert (Hp : parseDigits (FormatUint u) 0 = Parsed u)
    by (apply parseDigits_FormatUint; lia).
  destruct (formatBits_head 19 u EmptyString) as (d & rest & Hd & E); [lia|].
  fold (FormatUint u) in E. unfold Atoi.
  rewrite E in *.
  rewrite digitChar_not_minus, digitChar_not_plus by assumption.
  cbn [orb]. rewrite Hp.
  destruct (u >=? 2 ^ 63) eqn:G; [|reflexivity].
  apply Z.geb_le in G. lia.
Qed.

Lemma Atoi_Itoa (n : Z) : isInt n -> Atoi (Itoa n) = (n, None).
Proof.
  intros [Hlo Hhi]. unfold minInt in Hlo. unfold Itoa.
  destruct (n <? 0) eqn:N.
  - apply Z.ltb_lt in N.
    assert (Hp : parseDigits (FormatUint (- n)) 0 = Parsed (- n))
      by (apply parseDigits_FormatUint; lia).
    destruct (formatBits_head 19 (- n) EmptyString) as (d & rest & Hd & E);
      [lia|].
    fold (FormatUint (- n)) in E. unfold Atoi.
    change (Ascii.eqb "-" "-") with true. cbn [orb].
    rewrite E in *. rewrite Hp.
    destruct (- n >? 2 ^ 63) eqn:G.
    + apply Z.gtb_lt in G. lia.
    + now rewrite Z.opp_involutive.
  - apply Z.ltb_ge in N. apply Atoi_FormatUint. lia.
Qed.

End StrconvFacts.

Lemma extractIndexFromKey_prefixed (rest : string) :
  extractIndexFromKey (allocatedIDsKeyPrefix ++ rest) = Strconv.Atoi rest.
Proof.
  unfold extractIndexFromKey.
  replace (Strings.HasPrefix (allocatedIDsKeyPrefix ++ rest) allocatedIDsKeyPrefix)
    with true
    by (symmetry; apply StringFacts.HasPrefix_true; now exists rest).
  now rewrite StringFacts.ReplaceFirst_prefix.
Qed.

Lemma extractIndexFromKey_createKey (id : Z) :
  isUint32 id -> extractIndexFromKey (createKey id) = (id, None).
Proof.
  intros [Hlo Hhi]. unfold createKey. rewrite extractIndexFromKey_prefixed.
  apply StrconvFacts.Atoi_FormatUint. unfold maxInt, maxUint32 in *. lia.
Qed.

(** ** The first gap *)

Lemma wrapInt_small (z : Z) : isInt z -> wrapInt z = z.
Proof.
  unfold isInt, minInt, maxInt, wrapInt. intros H.
  rewrite Z.mod_small; lia.
Qed.

Lemma firstGapFrom_spec (ids : list Z) :
  forall res,
    StronglySorted Z.lt ids ->
    Forall (fun v => res <= v) ids ->
    1 <= res ->
    res + Z.of_nat (List.length ids) <= maxInt ->
    let g := firstGapFrom res ids in
    res <= g /\ ~ In g ids /\ forall m, res <= m < g -> In m ids.
Proof.
  induction ids as [|v rest IH]; intros res Hs Hge Hres Hlen; cbn [firstGapFrom].
  - cbn. repeat split; intros; first [lia | tauto].
  - inversion Hs as [|? ? Hs' Hlt]; subst.
    inversion Hge as [|? ? Hv Hge']; subst.
    cbn [List.length] in Hlen.
    destruct (res =? v) eqn:E.
    + apply Z.eqb_eq in E. subst v.
      rewrite wrapInt_small by (unfold isInt, minInt, maxInt in *; lia).
      destruct (IH (res + 1)) as (H1 & H2 & H3); trivial; try lia.
      * eapply Forall_impl; [|exact Hlt]. cbn. intros; lia.
      * cbn zeta. repeat split; [lia| |].
        -- intros [F|F]; [lia|exact (H2 F)].
        -- intros m Hm. destruct (Z.eq_dec m res) as [->|N];
             [now left | right; apply H3; lia].
    + apply Z.eqb_neq in E. cbn zeta. repeat split; [lia| |intros; lia].
      intros [F|F]; [lia|].
      rewrite Forall_forall in Hlt. specialize (Hlt _ F). lia.
Qed.

Lemma firstGapFrom_seq (n : nat) :
  forall s : nat,
    Z.of_nat (s + n) <= maxInt ->
    firstGapFrom (Z.of_nat s) (map Z.of_nat (seq s n)) = Z.of_nat (s + n).
Proof.
  induction n as [|n IH]; intros s H; cbn [seq map firstGapFrom].
  - f_equal. lia.
  - rewrite Z.eqb_refl.
    rewrite wrapInt_small by (unfold isInt, minInt, maxInt in *; lia).
    replace (Z.of_nat s + 1) with (Z.of_nat (S s)) by lia.
    rewrite IH by (replace (S s + n)%nat with (s + S n)%nat by lia; exact H).
    f_equal. lia.
Qed.

(** C2: on a slice of distinct positive integers in ascending order
    findFirstAvailableIndex returns the least positive integer the slice
    does not hold; on [1, ..., n] it returns n + 1 and on [1, 2, 4] it
    returns 3.  (The slice is shorter than the largest [int].) *)
Theorem findFirstAvailableIndex_least_missing (ids : list Z) (n : nat) :
  StronglySorted Z.lt ids ->
  Forall (fun v => 1 <= v) ids ->
  Z.of_nat (List.length ids) < maxInt ->
  Z.of_nat n < maxInt ->
  leastMissing ids (findFirstAvailableIndex ids) /\
  findFirstAvailableIndex (oneTo n) = Z.of_nat n + 1 /\
  findFirstAvailableIndex [1; 2; 4] = 3.
Proof.
  intros Hs Hpos Hlen Hn. repeat split.
  - apply (firstGapFrom_spec ids 1); trivial; lia.
  - apply (firstGapFrom_spec ids 1); trivial; lia.
  - intros m Hm Hnot.
    destruct (firstGapFrom_spec ids 1) as (_ & _ & H); trivial; try lia.
    unfold findFirstAvailableIndex.
    destruct (Z_le_gt_dec (firstGapFrom 1 ids) m) as [L|G]; [exact L|].
    elim Hnot. apply H. lia.
  - unfold findFirstAvailableIndex, oneTo.
    change 1 with (Z.of_nat 1) at 1.
    rewrite (firstGapFrom_seq n 1) by lia. lia.
Qed.

Lemma findFirstAvailableIndex_least_missing_witness :
  leastMissing [1; 2; 4; 7] (findFirstAvailableIndex [1; 2; 4; 7]) /\
  findFirstAvailableIndex (oneTo 5) = 5 + 1 /\
  findFirstAvailableIndex [1; 2; 4] = 3.
Proof.
  apply (findFirstAvailableIndex_least_missing [1; 2; 4; 7] 5).
  - repeat constructor.
  - repeat constructor; lia.
  - unfold maxInt; simpl; lia.
  - unfold maxInt; simpl; lia.
Defined.

(** ** Runs of a program *)

Section RunFacts.
Context {Ser : Serializer}.

Lemma Paths_mono {A : Type} (p : Prog A) :
  forall Q Q' : list event -> A -> Prop,
    (forall tr a, Q tr a -> Q' tr a) -> Paths p Q -> Paths p Q'.
Proof.
  induction p as [a|ia prefix k IH|ia prefix k IH|ia key data k IH|ia key k IH];
    intros Q Q' HQ HP; cbn in *; try (now apply HQ);
    intros r; (eapply IH; [|apply HP]); cbn; intros; now apply HQ.
Qed.

Lemma Paths_run {A W : Type} (st : Store W) (p : Prog A) :
  forall (Q : list event -> A -> Prop) (w : W),
    Paths p Q -> Q (snd (run st p w)) (fst (fst (run st p w))).
Proof.
  induction p as [a|ia prefix k IH|ia prefix k IH|ia key data k IH|ia key k IH];
    intros Q w HP; cbn [run].
  - exact HP.
  - destruct (doListValues st prefix w) as [r w1].
    specialize (IH r _ w1 (HP r)).
    destruct (run st (k r) w1) as [[a w2] tr]. exact IH.
  - destruct (doListKeys st prefix w) as [r w1].
    specialize (IH r _ w1 (HP r)).
    destruct (run st (k r) w1) as [[a w2] tr]. exact IH.
  - destruct (doPutIfNotExists st key data w) as [r w1].
    specialize (IH r _ w1 (HP r)).
    destruct (run st (k r) w1) as [[a w2] tr]. exact IH.
  - destruct (doDelete st key w) as [r w1].
    specialize (IH r _ w1 (HP r)).
    destruct (run st (k r) w1) as [[a w2] tr]. exact IH.
Qed.

Lemma getID_held (ia : idAllocator) :
  allocated ia = true -> getID ia = Ret ((ID ia, None), ia).
Proof. intros H. unfold getID, bind, self. cbn. rewrite H. reflexivity. Qed.

Lemma releaseID_not_held (ia : idAllocator) :
  allocated ia = false -> releaseID ia = Ret (Some errNoIDallocated, ia).
Proof. intros H. unfold releaseID, bind, self. cbn. rewrite H. reflexivity. Qed.

Local Arguments createKey : simpl never.
Local Arguments findFirstAvailableIndex : simpl never.
Local Arguments sortInts : simpl never.
Local Arguments toUint32 : simpl never.
Local Arguments wrapInt : simpl never.
Local Arguments Z.gtb : simpl never.
Local Arguments Z.of_nat : simpl never.
Local Arguments Z.add : simpl never.
Local Arguments Z.sub : simpl never.

Ltac leaf :=
  unfold LoopPost, writes, lostWrites, maxAttempts in *; cbn;
  repeat split; intros; try discriminate; try lia; auto.

Lemma allocLoop_paths (fuel : nat) :
  forall attempts ia,
    0 <= attempts <= maxAttempts ->
    maxAttempts - attempts < Z.of_nat fuel ->
    Paths (allocLoop fuel attempts ia) (LoopPost attempts).
Proof.
  induction fuel as [|fuel IH]; intros a ia Ha Hf.
  - unfold maxAttempts in *. lia.
  - cbn. intros [keys|e]; cbn; [|leaf].
    destruct (collectIDs keys []) as [ids [e|]]; cbn; [leaf|].
    destruct (Marshal _) as [v|e]; cbn; [|leaf].
    intros [[|]|e]; cbn; [leaf| |leaf].
    rewrite wrapInt_small
      by (unfold isInt, minInt, maxInt, maxAttempts in *; lia).
    destruct (a + 1 >? maxAttempts) eqn:G; cbn.
    + apply Z.gtb_lt in G. leaf.
    + assert (G' : a + 1 <= maxAttempts)
        by (destruct (Z.gtb_spec (a + 1) maxAttempts); [discriminate|lia]).
      eapply Paths_mono; [|apply IH; unfold maxAttempts in *; lia].
      intros tr x (H1 & H2 & H3 & H4 & H5).
      unfold LoopPost, writes, lostWrites, maxAttempts in *; cbn.
      repeat split; intros; try discriminate; auto; try lia;
        try (destruct tr; cbn; now auto);
        try (apply H4; lia); try (now apply H5).
Qed.

Lemma getID_paths (ia : idAllocator) : Paths (getID ia) GetIDPost.
Proof.
  unfold getID, bind, self. cbn -[allocLoop].
  destruct (allocated ia) eqn:A; cbn -[allocLoop].
  - unfold GetIDPost, writes, lostWrites, maxAttempts; cbn.
    repeat split; intros; try discriminate; auto; lia.
  - intros [kvs|e]; cbn -[allocLoop].
    + destruct (scanEntries (serviceLabel ia) kvs) as [[item|] [e|]];
        cbn -[allocLoop];
        try (unfold GetIDPost, writes, lostWrites, maxAttempts; cbn;
             repeat split; intros; try discriminate; auto; lia).
      eapply Paths_mono; [|apply allocLoop_paths; unfold maxAttempts; cbn; lia].
      intros tr x (H1 & H2 & H3 & H4 & H5).
      unfold GetIDPost, writes, lostWrites, maxAttempts in *; cbn.
      repeat split; intros; try discriminate; auto; try lia;
        try (destruct tr as [|[] ?]; cbn in *; now auto);
        try (apply H4; lia); try (now apply H5).
    + unfold GetIDPost, writes, lostWrites, maxAttempts; cbn.
      repeat split; intros; try discriminate; auto; lia.
Qed.

(** The loop of [getID] ends by itself: more fuel changes nothing. *)
Lemma allocLoop_fuel {W : Type} (st : Store W) (fuel : nat) :
  forall fuel' attempts ia w,
    0 <= attempts <= maxAttempts ->
    maxAttempts - attempts < Z.of_nat fuel ->
    maxAttempts - attempts < Z.of_nat fuel' ->
    run st (allocLoop fuel attempts ia) w =
    run st (allocLoop fuel' attempts ia) w.
Proof.
  induction fuel as [|fuel IH]; intros fuel' a ia w Ha Hf Hf'.
  - unfold maxAttempts in *. lia.
  - destruct fuel' as [|fuel']; [unfold maxAttempts in *; lia|].
    cbn. destruct (doListKeys st allocatedIDsKeyPrefix w) as [[keys|e] w1];
      cbn; [|reflexivity].
    destruct (collectIDs keys []) as [ids [e|]]; cbn; [reflexivity|].
    destruct (Marshal _) as [v|e]; cbn; [|reflexivity].
    destruct (doPutIfNotExists st _ v w1) as [[[|]|e] w2]; cbn;
      try reflexivity.
    rewrite wrapInt_small
      by (unfold isInt, minInt, maxInt, maxAttempts in *; lia).
    destruct (a + 1 >? maxAttempts) eqn:G; cbn; [reflexivity|].
    assert (G' : a + 1 <= maxAttempts)
      by (destruct (Z.gtb_spec (a + 1) maxAttempts); [discriminate|lia]).
    rewrite (IH fuel') by (unfold maxAttempts in *; lia).
    reflexivity.
Qed.

Lemma abortsOnError_split (tr : list event) (ret : Z * option error) :
  abortsOnError tr ret ->
  forall pre ev post e,
    tr = pre ++ ev :: post -> eventError ev = Some e ->
    post = [] /\ ret = (0, Some e).
Proof.
  intros H pre. revert tr H.
  induction pre as [|x pre IH]; intros tr H ev post e -> E; cbn in H.
  - now rewrite E in H.
  - destruct (eventError x) as [e'|].
    + destruct H as [H _]. now destruct pre.
    + eapply IH; eauto.
Qed.

Lemma retriesAfterLostWrite_split (tr : list event) :
  retriesAfterLostWrite tr ->
  forall pre ev ev' post,
    tr = pre ++ ev :: ev' :: post ->
    isListKeys ev' = true -> isLostWrite ev = true.
Proof.
  intros H pre. revert tr H.
  induction pre as [|x pre IH]; intros tr H ev ev' post -> E; cbn in H.
  - now apply H.
  - destruct H as [_ H]. eapply IH; eauto.
Qed.

End RunFacts.

(** ** The key codec *)

(** C9: a key made by createKey from a uint32 decodes to that number
    with no error, and a key that does not begin with "allocatedIDs/"
    is refused with errInvalidKey. *)
Theorem key_codec_roundtrip (id : Z) (key : string) :
  (isUint32 id -> extractIndexFromKey (createKey id) = (id, None)) /\
  ((forall rest, key <> (allocatedIDsKeyPrefix ++ rest)%string) ->
   extractIndexFromKey key = (0, Some errInvalidKey)).
Proof.
  split.
  - apply extractIndexFromKey_createKey.
  - intros H. unfold extractIndexFromKey.
    now rewrite (StringFacts.HasPrefix_false _ _ H).
Qed.

Lemma key_codec_roundtrip_witness :
  extractIndexFromKey (createKey 4294967295) = (4294967295, None) /\
  extractIndexFromKey "allocated/3" = (0, Some errInvalidKey).
Proof.
  destruct (key_codec_roundtrip 4294967295 "allocated/3") as [H1 H2].
  split.
  - apply H1. unfold isUint32, maxUint32. simpl. lia.
  - apply H2. intros rest. simpl. discriminate.
Defined.

Section ListingFacts.
Context {Ser : Serializer}.

Lemma collectIDs_Itoa (ns : list Z) :
  forall acc,
    Forall isInt ns ->
    collectIDs
      (map (fun n => (allocatedIDsKeyPrefix ++ Strconv.Itoa n)%string) ns) acc =
    ((acc ++ ns)%list, None).
Proof.
  induction ns as [|n ns IH]; intros acc H; cbn [map collectIDs].
  - now rewrite app_nil_r.
  - inversion H as [|? ? Hn Hns]; subst.
    rewrite extractIndexFromKey_prefixed, (StrconvFacts.Atoi_Itoa n Hn).
    rewrite IH by assumption. now rewrite <- app_assoc.
Qed.

End ListingFacts.

(** C10: a key made of "allocatedIDs/" and the decimal form of an int
    [n], zero and negative numbers included, decodes to [n] with no
    error; so listAllIDs returns whatever ints the keys spell, positive
    or not. *)
Theorem extractIndexFromKey_any_int {Ser : Serializer} {W : Type}
  (st : Store W) (w w1 : W) (ia : idAllocator) (n : Z) (ns : list Z) :
  isInt n ->
  Forall isInt ns ->
  doListKeys st allocatedIDsKeyPrefix w =
    (Ok (map (fun n => (allocatedIDsKeyPrefix ++ Strconv.Itoa n)%string) ns),
     w1) ->
  extractIndexFromKey (allocatedIDsKeyPrefix ++ Strconv.Itoa n) = (n, None) /\
  extractIndexFromKey "allocatedIDs/-3" = (-3, None) /\
  extractIndexFromKey "allocatedIDs/0" = (0, None) /\
  fst (fst (run st (listAllIDs ia) w)) = ((ns, None), ia).
Proof.
  intros Hn Hns Hl. repeat split; try reflexivity.
  - rewrite extractIndexFromKey_prefixed. now apply StrconvFacts.Atoi_Itoa.
  - unfold listAllIDs, bind, brokerListKeys. cbn [bindProg run fst snd].
    rewrite Hl. cbn [bindProg run fst snd ret].
    now rewrite collectIDs_Itoa.
Qed.

Lemma extractIndexFromKey_any_int_witness :
  extractIndexFromKey "allocatedIDs/-9223372036854775808" =
    (-9223372036854775808, None) /\
  fst (fst (run (@memStore plainSerializer) (listAllIDs (newIDAllocator "n"))
              [("allocatedIDs/-3"%string, {| Name := "a"; Id := 3 |});
               ("allocatedIDs/0"%string, {| Name := "b"; Id := 0 |});
               ("allocatedIDs/2"%string, {| Name := "c"; Id := 2 |})])) =
    (([-3; 0; 2], None), newIDAllocator "n").
Proof.
  destruct (@extractIndexFromKey_any_int plainSerializer _
              (@memStore plainSerializer)
              [("allocatedIDs/-3"%string, {| Name := "a"; Id := 3 |});
               ("allocatedIDs/0"%string, {| Name := "b"; Id := 0 |});
               ("allocatedIDs/2"%string, {| Name := "c"; Id := 2 |})]
              [("allocatedIDs/-3"%string, {| Name := "a"; Id := 3 |});
               ("allocatedIDs/0"%string, {| Name := "b"; Id := 0 |});
               ("allocatedIDs/2"%string, {| Name := "c"; Id := 2 |})]
              (newIDAllocator "n") (-9223372036854775808) [-3; 0; 2])
    as (H1 & _ & _ & H4).
  - unfold isInt, minInt, maxInt. simpl. lia.
  - repeat constructor; unfold minInt, maxInt; simpl; lia.
  - reflexivity.
  - split; [exact H1 | exact H4].
Defined.

(** ** getID and releaseID against any store *)

Lemma run_getID_post {Ser : Serializer} {W : Type} (st : Store W) (w : W)
  (ia : idAllocator) :
  GetIDPost (snd (run st (getID ia) w)) (fst (fst (run st (getID ia) w))).
Proof. apply Paths_run, getID_paths. Qed.

(** C4: an allocator that holds an identifier returns it with no error
    and without a call on the store; so after a getID that succeeded,
    the next getID returns the same identifier, leaves the store as it
    is and makes no call on it. *)
Theorem getID_idempotent {Ser : Serializer} {W : Type} (st : Store W)
  (w : W) (ia : idAllocator) :
  (allocated ia = true ->
   getID ia = Ret ((ID ia, None), ia) /\
   run st (getID ia) w = ((ID ia, None, ia), w, []) /\
   run st (getID (snd (fst (fst (run st (getID ia) w)))))
     (snd (fst (run st (getID ia) w))) = ((ID ia, None, ia), w, [])) /\
  (forall id ia' w' tr,
     run st (getID ia) w = ((id, None, ia'), w', tr) ->
     run st (getID ia') w' = ((id, None, ia'), w', [])).
Proof.
  split.
  - intros H. rewrite (getID_held ia H). cbn [run fst snd].
    rewrite (getID_held ia H). now cbn [run].
  - intros id ia' w' tr H.
    pose proof (run_getID_post st w ia) as P. rewrite H in P.
    destruct P as (_ & _ & _ & _ & P). cbn in P.
    destruct (P eq_refl) as [A I].
    rewrite (getID_held ia' A). cbn [run]. now rewrite I.
Qed.

Lemma getID_idempotent_witness :
  run (@memStore plainSerializer)
    (getID {| serviceLabel := "m"; allocated := true; ID := 7 |}) [] =
  ((7, None, {| serviceLabel := "m"; allocated := true; ID := 7 |}), [], []) /\
  run (@memStore plainSerializer)
    (getID {| serviceLabel := "n"; allocated := true; ID := 1 |})
    [("allocatedIDs/1"%string, {| Name := "n"; Id := 1 |})] =
  ((1, None, {| serviceLabel := "n"; allocated := true; ID := 1 |}),
   [("allocatedIDs/1"%string, {| Name := "n"; Id := 1 |})], []).
Proof.
  split.
  - destruct (@getID_idempotent plainSerializer _ (@memStore plainSerializer)
                [] {| serviceLabel := "m"; allocated := true; ID := 7 |})
      as [H _].
    apply H. reflexivity.
  - destruct (@getID_idempotent plainSerializer _ (@memStore plainSerializer)
                [] (newIDAllocator "n")) as [_ H].
    eapply H. vm_compute. reflexivity.
Defined.

(** C6: releaseID on an allocator that holds no identifier returns
    errNoIDallocated, makes no call on the store, leaves the store as
    it is and leaves the allocator as it is. *)
Theorem releaseID_without_id {Ser : Serializer} {W : Type} (st : Store W)
  (w : W) (ia : idAllocator) :
  allocated ia = false ->
  releaseID ia = Ret (Some errNoIDallocated, ia) /\
  run st (releaseID ia) w = ((Some errNoIDallocated, ia), w, []).
Proof.
  intros H. rewrite (releaseID_not_held ia H). now cbn.
Qed.

Lemma releaseID_without_id_witness :
  run (@memStore plainSerializer) (releaseID (newIDAllocator "n"))
    [("allocatedIDs/1"%string, {| Name := "a"; Id := 1 |})] =
  ((Some errNoIDallocated, newIDAllocator "n"),
   [("allocatedIDs/1"%string, {| Name := "a"; Id := 1 |})], []).
Proof.
  apply (@releaseID_without_id plainSerializer _ (@memStore plainSerializer)).
  reflexivity.
Defined.

(** C7: releaseID on an allocator that holds an identifier deletes its
    key; when the delete fails the allocator goes on holding and the
    error is returned, and when the delete returns no error, whether
    the key was there or not, the allocator holds nothing any more and
    no error is returned. *)
Theorem releaseID_follows_delete {Ser : Serializer} {W : Type}
  (st : Store W) (w w1 : W) (ia : idAllocator) (r : result bool) :
  allocated ia = true ->
  doDelete st (createKey (ID ia)) w = (r, w1) ->
  run st (releaseID ia) w =
  (match r with
   | Err e => (Some e, ia)
   | Ok _ => (None, released ia)
   end, w1, [EvDelete (createKey (ID ia)) r]).
Proof.
  intros H D. unfold releaseID, bind, self, brokerDelete.
  cbn [bindProg fst snd]. rewrite H. cbn [negb bindProg fst snd run].
  rewrite D. now destruct r.
Qed.

Lemma releaseID_follows_delete_witness :
  run (@memStore plainSerializer)
    (releaseID {| serviceLabel := "n"; allocated := true; ID := 2 |})
    [("allocatedIDs/1"%string, {| Name := "a"; Id := 1 |})] =
  ((None, {| serviceLabel := "n"; allocated := false; ID := 2 |}),
   [("allocatedIDs/1"%string, {| Name := "a"; Id := 1 |})],
   [@EvDelete plainSerializer "allocatedIDs/2" (Ok false)]) /\
  run (@unreachableStore plainSerializer)
    (releaseID {| serviceLabel := "n"; allocated := true; ID := 2 |}) tt =
  ((Some (ExternalError "context deadline exceeded"),
    {| serviceLabel := "n"; allocated := true; ID := 2 |}),
   tt,
   [@EvDelete plainSerializer "allocatedIDs/2"
      (Err (ExternalError "context deadline exceeded"))]).
Proof.
  split.
  - apply (@releaseID_follows_delete plainSerializer _
             (@memStore plainSerializer)
             [("allocatedIDs/1"%string, {| Name := "a"; Id := 1 |})]
             [("allocatedIDs/1"%string, {| Name := "a"; Id := 1 |})]
             {| serviceLabel := "n"; allocated := true; ID := 2 |}
             (Ok false)); reflexivity.
  - apply (@releaseID_follows_delete plainSerializer _
             (@unreachableStore plainSerializer) tt tt
             {| serviceLabel := "n"; allocated := true; ID := 2 |}
             (Err (ExternalError "context deadline exceeded")));
      reflexivity.
Defined.

(** C8: in a run of getID a call on the store that fails is the last
    call of the run, and getID returns identifier 0 with that error;
    the keys are listed again only right after a conditional write that
    created nothing and reported no error (the first listing comes
    right after the discovery). *)
Theorem getID_aborts_on_store_error {Ser : Serializer} {W : Type}
  (st : Store W) (w : W) (ia : idAllocator)
  (pre post : list event) (ev : event) :
  snd (run st (getID ia) w) = (pre ++ ev :: post)%list ->
  (forall e,
     eventError ev = Some e ->
     post = [] /\ fst (fst (fst (run st (getID ia) w))) = (0, Some e)) /\
  (forall ev' post',
     post = ev' :: post' -> isListKeys ev' = true ->
     (pre = [] /\ isListValuesOk ev = true) \/
     (pre <> [] /\ isLostWrite ev = true)).
Proof.
  intros E. pose proof (run_getID_post st w ia) as P.
  rewrite E in P. destruct P as (P1 & P2 & _). split.
  - intros e He. eapply abortsOnError_split; eauto.
  - intros ev' post' -> L. destruct pre as [|x pre]; cbn in P2.
    + left. split; [reflexivity|]. now apply P2.
    + right. split; [discriminate|]. destruct P2 as [_ P2].
      eapply retriesAfterLostWrite_split; eauto.
Qed.

Lemma getID_aborts_on_store_error_witness :
  fst (fst (fst (run (@unreachableStore plainSerializer)
                   (getID (newIDAllocator "n")) tt))) =
  (0, Some (ExternalError "context deadline exceeded")) /\
  isLostWrite
    (@EvPutIfNotExists plainSerializer "allocatedIDs/1"
       {| Name := "n"; Id := 1 |} (Ok false))
  = true.
Proof.
  split.
  - destruct (@getID_aborts_on_store_error plainSerializer _
                (@unreachableStore plainSerializer) tt (newIDAllocator "n")
                [] []
                (@EvListValues plainSerializer "allocatedIDs/"
                   (Err (ExternalError "context deadline exceeded"))))
      as [H _]; [vm_compute; reflexivity|].
    apply (H (ExternalError "context deadline exceeded")). reflexivity.
  - destruct (@getID_aborts_on_store_error plainSerializer _
                contendedStore [] (newIDAllocator "n")
                [@EvListValues plainSerializer "allocatedIDs/" (Ok []);
                 @EvListKeys plainSerializer "allocatedIDs/" (Ok [])]
                (skipn 3 (snd (run contendedStore
                                 (getID (newIDAllocator "n")) [])))
                (@EvPutIfNotExists plainSerializer "allocatedIDs/1"
                   {| Name := "n"; Id := 1 |} (Ok false)))
      as [_ H]; [vm_compute; reflexivity|].
    destruct (H (@EvListKeys plainSerializer "allocatedIDs/"
                   (Ok ["allocatedIDs/1"%string]))
                (skipn 4 (snd (run contendedStore
                                 (getID (newIDAllocator "n")) []))))
      as [[F _]|[_ G]];
      [vm_compute; reflexivity | reflexivity | discriminate F | exact G].
Defined.

(** C3: getID makes at most maxAttempts + 1 = 11 conditional writes,
    and against a store where a rival takes every free key first it
    makes all eleven, one more than maxAttempts, before it returns
    identifier 0 with errUnableToAllocateID. *)
Theorem getID_eleven_writes :
  (forall (Ser : Serializer) (W : Type) (st : Store W) (w : W)
          (ia : idAllocator),
     Z.of_nat (writes (snd (run st (getID ia) w))) <= maxAttempts + 1) /\
  fst (fst (fst (run contendedStore (getID (newIDAllocator "n")) []))) =
    (0, Some errUnableToAllocateID) /\
  Z.of_nat (writes (snd (run contendedStore (getID (newIDAllocator "n")) [])))
    = maxAttempts + 1.
Proof.
  split; [|split; vm_compute; reflexivity].
  intros Ser W st w ia. apply (run_getID_post st w ia).
Qed.

(** ** Discovery of the allocator's own record *)

Section Discovery.
Context {Ser : Serializer}.

Lemma scanEntries_first (label : string) (key : string) (v : value)
  (id : Z) (post : list (string * value)) :
  forall pre,
    Forall (fun kv => exists item,
                GetValue (snd kv) = Ok item /\ Name item <> label) pre ->
    GetValue v = Ok {| Name := label; Id := id |} ->
    scanEntries label (pre ++ (key, v) :: post) =
    (Some {| Name := label; Id := id |}, None).
Proof.
  induction pre as [|kv pre IH]; intros Hpre Hv; cbn [app scanEntries snd].
  - rewrite Hv. cbn [Name]. now rewrite String.eqb_refl.
  - inversion Hpre as [|? ? (item & Hi & Hn) Hpre']; subst.
    rewrite Hi. apply String.eqb_neq in Hn. rewrite Hn. now apply IH.
Qed.

Lemma scanEntries_none_app (label : string) (l2 : list (string * value)) :
  forall l1,
    scanEntries label l1 = (None, None) ->
    scanEntries label (l1 ++ l2) = scanEntries label l2.
Proof.
  induction l1 as [|kv l1 IH]; intros H; cbn [app scanEntries] in *.
  - reflexivity.
  - destruct (GetValue (snd kv)) as [item|e]; [|discriminate].
    destruct (String.eqb (Name item) label); [discriminate|]. now apply IH.
Qed.

Lemma under_createKey (id : Z) (v : value) :
  under allocatedIDsKeyPrefix (createKey id, v) = true.
Proof.
  unfold under, createKey. cbn [fst].
  apply StringFacts.HasPrefix_true. now eexists.
Qed.

Local Arguments createKey : simpl never.
Local Arguments findFirstAvailableIndex : simpl never.
Local Arguments sortInts : simpl never.
Local Arguments toUint32 : simpl never.
Local Arguments wrapInt : simpl never.
Local Arguments Z.gtb : simpl never.
Local Arguments filter : simpl never.

(** On the store in memory a loop that succeeds has added exactly the
    record of the identifier it returns. *)
Lemma allocLoop_memStore (fuel : nat) :
  forall attempts ia w id ia' w' tr,
    run memStore (allocLoop fuel attempts ia) w = ((id, None, ia'), w', tr) ->
    exists v,
      Marshal {| Name := serviceLabel ia; Id := id |} = Ok v /\
      w' = (w ++ [(createKey id, v)])%list /\
      ia' = holding ia id.
Proof.
  induction fuel as [|fuel IH]; intros a ia w id ia' w' tr H.
  - cbn in H. discriminate.
  - cbn in H.
    destruct (collectIDs _ []) as [ids [e|]]; cbn in H; [discriminate|].
    destruct (Marshal _) as [v|e] eqn:M; cbn in H; [|discriminate].
    unfold memPutIfNotExists in H.
    destruct (lookup _ w); cbn in H.
    + destruct (wrapInt (a + 1) >? maxAttempts); cbn in H; [discriminate|].
      destruct (run memStore (allocLoop fuel _ _) w) as [[x w2] tr2] eqn:R.
      destruct x as [[id2 [e|]] ia2]; inversion H; subst.
      destruct (IH _ _ _ _ _ _ _ R) as (v' & M' & -> & ->).
      exists v'. now repeat split.
    + inversion H; subst. exists v. now repeat split.
Qed.

End Discovery.

(** C5: a new allocator with the service label of the previous holder
    does not always get the holder's identifier again: the name of the
    record is written as JSON, where a byte that is not valid UTF-8
    becomes U+FFFD, so the allocator labelled with the byte FF gets
    identifier 1, its record reads back with the name U+FFFD, and a new
    allocator with the same label finds no record of its own and takes
    identifier 2, leaving two records. *)
Theorem getID_restart_unstable :
  fst (run (@memStore jsonSerializer) (getID (newIDAllocator invalidLabel)) [])
  = ((1, None, holding (newIDAllocator invalidLabel) 1), coercedStore) /\
  fst (run (@memStore jsonSerializer) (getID (newIDAllocator invalidLabel))
         coercedStore)
  = ((2, None, holding (newIDAllocator invalidLabel) 2),
     (coercedStore
      ++ [(createKey 2, Some {| Name := replacementChar; Id := 2 |})])%list).
Proof. split; vm_compute; reflexivity. Qed.

(** X20: an allocator that holds nothing and finds in the store a record
    whose name is its service label (the first such record of the
    listing, the records before it being readable) holds that record's
    identifier from then on and returns it, with one call on the store,
    the listing, and no write. *)
Theorem getID_adopts_first_own_record {Ser : Serializer}
  {W : Type} (st : Store W) (w w1 : W) (ia : idAllocator)
  (pre post : list (string * value)) (key : string) (v : value) (id : Z) :
  allocated ia = false ->
  doListValues st allocatedIDsKeyPrefix w = (Ok (pre ++ (key, v) :: post), w1) ->
  Forall (fun kv => exists item,
              GetValue (snd kv) = Ok item /\ Name item <> serviceLabel ia) pre ->
  GetValue v = Ok {| Name := serviceLabel ia; Id := id |} ->
  run st (getID ia) w =
    ((id, None, holding ia id), w1,
     [EvListValues allocatedIDsKeyPrefix (Ok (pre ++ (key, v) :: post))]).
Proof.
  intros A D Hpre Hv.
  unfold getID, bind, self. cbn -[allocLoop]. rewrite A.
  cbn -[allocLoop]. rewrite D. cbn -[allocLoop].
  rewrite (scanEntries_first _ key v id post pre Hpre Hv).
  reflexivity.
Qed.

Lemma getID_adopts_first_own_record_witness :
  run (@memStore plainSerializer) (getID (newIDAllocator "x"))
    [("allocatedIDs/1"%string, {| Name := "a"; Id := 1 |});
     ("allocatedIDs/2"%string, {| Name := "x"; Id := 2 |})] =
  ((2, None, {| serviceLabel := "x"; allocated := true; ID := 2 |}),
   [("allocatedIDs/1"%string, {| Name := "a"; Id := 1 |});
    ("allocatedIDs/2"%string, {| Name := "x"; Id := 2 |})],
   [@EvListValues plainSerializer "allocatedIDs/"
      (Ok [("allocatedIDs/1"%string, {| Name := "a"; Id := 1 |});
           ("allocatedIDs/2"%string, {| Name := "x"; Id := 2 |})])]).
Proof.
  apply (@getID_adopts_first_own_record plainSerializer _
           (@memStore plainSerializer)
           [("allocatedIDs/1"%string, {| Name := "a"; Id := 1 |});
            ("allocatedIDs/2"%string, {| Name := "x"; Id := 2 |})]
           [("allocatedIDs/1"%string, {| Name := "a"; Id := 1 |});
            ("allocatedIDs/2"%string, {| Name := "x"; Id := 2 |})]
           (newIDAllocator "x")
           [("allocatedIDs/1"%string, {| Name := "a"; Id := 1 |})] []
           "allocatedIDs/2" {| Name := "x"; Id := 2 |} 2).
  - reflexivity.
  - reflexivity.
  - constructor; [|constructor].
    exists {| Name := "a"; Id := 1 |}. split; [reflexivity|discriminate].
  - reflexivity.
Defined.

Lemma jsonSerializer_readsBack (label : string) :
  coerceUTF8 label = label -> @ReadsBack jsonSerializer label.
Proof.
  intros V id v H. cbn [Marshal jsonSerializer Name Id] in H.
  inversion H; subst. cbn [GetValue jsonSerializer]. now rewrite V.
Qed.

Lemma jsonSerializer_readsBackId : ReadsBackId jsonSerializer.
Proof.
  intros x v H. cbn in H. inversion H; subst. eexists.
  split; reflexivity.
Qed.

(** X21: on a store nobody else writes to, when the records of a
    service label read back as written (with JSON: when the label is
    valid UTF-8), a new allocator with the label of one that got
    identifier [k] gets [k] again, with the one listing and without a
    write, and the store stays as it is. *)
Theorem getID_restart_stable {Ser : Serializer} (label : string)
  (w0 w' : kvstore) (k : Z) (ia' : idAllocator) :
  ReadsBack label ->
  fst (run memStore (getID (newIDAllocator label)) w0) = ((k, None, ia'), w') ->
  fst (run memStore (getID (newIDAllocator label)) w') = ((k, None, ia'), w') /\
  writes (snd (run memStore (getID (newIDAllocator label)) w')) = 0%nat.
Proof.
  intros RB H.
  unfold getID, bind, self, findExistingEntry, brokerListValues in *.
  cbn -[allocLoop filter] in H |- *.
  destruct (scanEntries label (filter (under allocatedIDsKeyPrefix) w0))
    as [[item|] [e|]] eqn:S0; cbn -[allocLoop filter] in H;
    try discriminate.
  - inversion H; subst. rewrite S0. cbn. split; reflexivity.
  - destruct (run memStore (allocLoop _ 0 _) w0) as [[x w2] tr2] eqn:R.
    cbn [fst snd] in H. inversion H; subst.
    destruct (allocLoop_memStore _ _ _ _ _ _ _ _ R) as (v' & M & -> & ->).
    rewrite filter_app. cbn [filter].
    rewrite under_createKey.
    rewrite (scanEntries_none_app _ _ _ S0). cbn [scanEntries snd].
    rewrite (RB _ _ M). cbn [Name].
    rewrite String.eqb_refl. cbn. split; reflexivity.
Qed.

Lemma getID_restart_stable_witness :
  fst (run (@memStore jsonSerializer) (getID (newIDAllocator "y"))
         [("allocatedIDs/1"%string, Some {| Name := "a"; Id := 1 |});
          ("allocatedIDs/3"%string, Some {| Name := "b"; Id := 3 |});
          ("allocatedIDs/2"%string, Some {| Name := "y"; Id := 2 |})]) =
  ((2, None, {| serviceLabel := "y"; allocated := true; ID := 2 |}),
   [("allocatedIDs/1"%string, Some {| Name := "a"; Id := 1 |});
    ("allocatedIDs/3"%string, Some {| Name := "b"; Id := 3 |});
    ("allocatedIDs/2"%string, Some {| Name := "y"; Id := 2 |})]).
Proof.
  apply (@getID_restart_stable jsonSerializer "y"
           [("allocatedIDs/1"%string, Some {| Name := "a"; Id := 1 |});
            ("allocatedIDs/3"%string, Some {| Name := "b"; Id := 3 |})]).
  - apply jsonSerializer_readsBack. vm_compute. reflexivity.
  - vm_compute. reflexivity.
Defined.

(** ** The calls keep their promise *)

Section ProtocolFacts.
Context {Ser : Serializer}.

Local Arguments createKey : simpl never.
Local Arguments findFirstAvailableIndex : simpl never.
Local Arguments sortInts : simpl never.
Local Arguments toUint32 : simpl never.
Local Arguments wrapInt : simpl never.
Local Arguments Z.gtb : simpl never.

Ltac settle := repeat split; intros; auto; try congruence.

Lemma scanEntries_found (label : string) (item : Identifier)
  (e : option error) :
  forall kvs,
    scanEntries label kvs = (Some item, e) ->
    exists kv, In kv kvs /\ GetValue (snd kv) = Ok item /\ Name item = label.
Proof.
  induction kvs as [|kv kvs IH]; cbn [scanEntries]; intros H.
  - discriminate.
  - destruct (GetValue (snd kv)) as [it|e'] eqn:G; [|discriminate].
    destruct (String.eqb (Name it) label) eqn:E.
    + inversion H; subst. apply String.eqb_eq in E.
      exists kv. repeat split; auto. now left.
    + destruct (IH H) as (kv' & I & R). exists kv'. split; [now right|exact R].
Qed.

Lemma allocLoop_safe (fuel : nat) :
  forall attempts ia,
    ReadsBack (serviceLabel ia) ->
    allocated ia = false ->
    Safe (serviceLabel ia)
      (inCall (fun r => GetIDRet (fst r) (snd r))
         (allocLoop fuel attempts ia)) /\
    allocated
      (progMemory (inCall (fun r => GetIDRet (fst r) (snd r))
                     (allocLoop fuel attempts ia))) = false.
Proof.
  induction fuel as [|fuel IH]; intros a ia RB A.
  - cbn. auto.
  - cbn. repeat split; auto.
    + destruct r as [keys|e]; cbn; [|auto].
      destruct (collectIDs keys []) as [ids [e|]]; cbn; [auto|].
      destruct (Marshal _) as [v|e] eqn:M; cbn; [|auto].
      repeat split; auto.
      eexists. split; [reflexivity|]. split.
      * apply (RB _ _ M).
      * intros [[|]|e]; cbn; [settle| |settle].
        destruct (wrapInt (a + 1) >? maxAttempts); cbn; [settle|].
        match goal with
        | |- context [allocLoop fuel ?a' ?ia'] =>
            destruct (IH a' ia' RB A) as [S1 S2]
        end.
        split; [exact S1|]. intros F.
        match type of F with
        | allocated ?m = true =>
            assert (S3 : allocated m = false) by exact S2
        end.
        congruence.
    + destruct r as [keys|e]; cbn; [|auto].
      destruct (collectIDs keys []) as [ids [e|]]; cbn; [auto|].
      destruct (Marshal _) as [v|e] eqn:M; cbn; auto.
Qed.

Lemma getID_safe (ia : idAllocator) :
  ReadsBack (serviceLabel ia) ->
  Safe (serviceLabel ia)
    (inCall (fun r => GetIDRet (fst r) (snd r)) (getID ia)) /\
  progMemory (inCall (fun r => GetIDRet (fst r) (snd r)) (getID ia)) = ia.
Proof.
  intros RB.
  unfold getID, bind, self, inCall. cbn -[allocLoop].
  destruct (allocated ia) eqn:A; cbn -[allocLoop].
  - auto.
  - repeat split; auto; destruct r as [kvs|e]; cbn -[allocLoop]; auto;
      try (intros F; congruence).
    + destruct (scanEntries (serviceLabel ia) kvs) as [[item|] [e|]] eqn:S0;
        cbn -[allocLoop]; auto.
      apply (allocLoop_safe _ 0 ia RB A).
    + destruct (scanEntries (serviceLabel ia) kvs) as [[item|] [e|]] eqn:S0;
        cbn -[allocLoop]; try (intros F; congruence).
      * intros _. destruct (scanEntries_found _ _ _ _ S0) as (kv & I & G & N).
        exists kvs, kv, item. now repeat split.
      * intros F.
        match type of F with
        | allocated ?m = true =>
            assert (S2 : allocated m = false)
              by apply (allocLoop_safe _ 0 ia RB A)
        end.
        congruence.
Qed.

Lemma releaseID_safe (ia : idAllocator) :
  Safe (serviceLabel ia) (inCall ReleaseIDRet (releaseID ia)) /\
  progMemory (inCall ReleaseIDRet (releaseID ia)) = ia.
Proof.
  unfold releaseID, bind, self, inCall. cbn.
  destruct (allocated ia) eqn:A; cbn.
  - repeat split; auto; destruct r; cbn; auto.
  - auto.
Qed.

Lemma allocLoop_acquiring (fuel : nat) :
  forall attempts ia,
    Acquiring (inCall (fun r => GetIDRet (fst r) (snd r))
                 (allocLoop fuel attempts ia)).
Proof.
  induction fuel as [|fuel IH]; intros a ia; cbn; [exact I|].
  intros [keys|e]; cbn; [|exact I].
  destruct (collectIDs keys []) as [ids [e|]]; cbn; [exact I|].
  destruct (Marshal _) as [v|e]; cbn; [|exact I].
  intros [[|]|e]; cbn; try exact I.
  destruct (wrapInt (a + 1) >? maxAttempts); cbn; [exact I|apply IH].
Qed.

Lemma getID_acquiring (ia : idAllocator) :
  Acquiring (inCall (fun r => GetIDRet (fst r) (snd r)) (getID ia)).
Proof.
  unfold getID, bind, self, inCall. cbn -[allocLoop].
  destruct (allocated ia); cbn -[allocLoop]; [exact I|].
  intros [kvs|e]; cbn -[allocLoop]; [|exact I].
  destruct (scanEntries (serviceLabel ia) kvs) as [[item|] [e|]];
    cbn -[allocLoop]; try exact I.
  apply allocLoop_acquiring.
Qed.

End ProtocolFacts.

(** ** The store in memory *)

Section StoreFacts.
Context {Ser : Serializer}.

Lemma lookup_In (key : string) (v : value) (w : kvstore) :
  lookup key w = Some v -> In (key, v) w.
Proof.
  induction w as [|[k d] w IH]; cbn [lookup fst snd]; [discriminate|].
  destruct (String.eqb_spec k key) as [->|N]; intros H.
  - inversion H; subst. now left.
  - right. now apply IH.
Qed.

Lemma lookup_None (key : string) (w : kvstore) :
  lookup key w = None -> ~ In key (map fst w).
Proof.
  induction w as [|[k d] w IH]; cbn [lookup fst snd map In]; [tauto|].
  destruct (String.eqb_spec k key) as [->|N]; [discriminate|].
  intros H [F|F]; [contradiction|]. now apply IH.
Qed.

Lemma In_lookup (key : string) (v : value) (w : kvstore) :
  NoDup (map fst w) -> In (key, v) w -> lookup key w = Some v.
Proof.
  induction w as [|[k d] w IH]; cbn [lookup fst snd map In]; [tauto|].
  intros N [E|I]; inversion N as [|? ? N1 N2]; subst.
  - inversion E; subst. now rewrite String.eqb_refl.
  - destruct (String.eqb_spec k key) as [->|K]; [|now apply IH].
    elim N1. apply (in_map fst) in I. exact I.
Qed.

Lemma lookup_app_old (key : string) (v : value) (w w2 : kvstore) :
  lookup key w = Some v -> lookup key (w ++ w2) = Some v.
Proof.
  induction w as [|[k d] w IH]; cbn [lookup fst snd app]; [discriminate|].
  destruct (String.eqb k key); auto.
Qed.

Lemma lookup_app_new (key : string) (d : value) (w : kvstore) :
  lookup key w = None -> lookup key (w ++ [(key, d)]) = Some d.
Proof.
  induction w as [|[k d'] w IH]; cbn [lookup fst snd app].
  - now rewrite String.eqb_refl.
  - destruct (String.eqb k key); [discriminate|auto].
Qed.

Lemma lookup_filter_other (key key' : string) (w : kvstore) :
  key' <> key ->
  lookup key' (filter (fun kv => negb (String.eqb (fst kv) key)) w) =
  lookup key' w.
Proof.
  intros N. induction w as [|[k d] w IH]; cbn [lookup fst snd filter]; auto.
  destruct (String.eqb_spec k key) as [->|K]; cbn [negb lookup fst snd].
  - destruct (String.eqb_spec key key'); [congruence|auto].
  - now rewrite IH.
Qed.

Lemma NoDup_keys_filter (f : string * value -> bool) (w : kvstore) :
  NoDup (map fst w) -> NoDup (map fst (filter f w)).
Proof.
  induction w as [|kv w IH]; cbn [map filter]; auto.
  intros N. inversion N as [|? ? N1 N2]; subst.
  destruct (f kv); cbn [map]; auto.
  constructor; auto. intros F. apply N1.
  apply in_map_iff in F. destruct F as (x & E & I).
  apply filter_In in I. apply in_map_iff. exists x. tauto.
Qed.

End StoreFacts.

(** ** The invariant of the cluster *)

Section ClusterFacts.
Context {Ser : Serializer}.

Lemma Safe_label (label : string) (p : Prog (retval * idAllocator)) :
  Safe label p -> serviceLabel (progMemory p) = label.
Proof. destruct p; cbn; tauto. Qed.

Lemma memory_label (label : string) (n : node) :
  nodeSafe label n -> serviceLabel (memory n) = label.
Proof. destruct n as [ia|p]; [auto|apply Safe_label]. Qed.

Lemma Inv_start : Inv startCluster.
Proof.
  repeat split; cbn; try constructor; try tauto. intros F. discriminate.
Qed.

Lemma Inv_update (c : cluster) (label : string) (n : node) (w' : kvstore)
  (log : list (string * retval)) :
  Inv c ->
  NoDup (map fst w') ->
  (forall key v,
     In (key, v) w' ->
     exists item, GetValue v = Ok item /\ key = createKey (Id item)) ->
  nodeSafe label n ->
  holds w' (memory n) ->
  (forall l0,
     l0 <> label ->
     nodeSafe l0 (nodes c l0) ->
     holds (store c) (memory (nodes c l0)) ->
     holds w' (memory (nodes c l0))) ->
  Inv {| store := w'; nodes := setNode c label n; returned := log |}.
Proof.
  intros (N & Wf & Nodes) N' Wf' Sn Hn Others.
  split; [exact N'|]. split; [exact Wf'|].
  intros l0. cbn [store nodes]. unfold setNode.
  destruct (String.eqb_spec l0 label) as [->|D]; [now split|].
  destruct (Nodes l0) as [S0 H0]. split; [exact S0|now apply Others].
Qed.

Lemma Inv_setNode (c : cluster) (label : string) (n : node)
  (log : list (string * retval)) :
  Inv c ->
  nodeSafe label n ->
  holds (store c) (memory n) ->
  Inv {| store := store c; nodes := setNode c label n; returned := log |}.
Proof.
  intros HI Sn Hn. apply Inv_update; auto; apply HI.
Qed.

Lemma holds_record (w : kvstore) (ia : idAllocator) (v : value)
  (item : Identifier) :
  lookup (createKey (Id item)) w = Some v ->
  GetValue v = Ok item ->
  Name item = serviceLabel ia ->
  Id item = ID ia ->
  holds w ia.
Proof.
  intros Lk G Nm Idq _. exists v. rewrite <- Idq. split; [exact Lk|].
  rewrite G. f_equal. destruct item; cbn in *. now subst.
Qed.

Lemma serve_Inv (c : cluster) (label : string) (failure : option error)
  (p p' : Prog (retval * idAllocator)) (w' : kvstore)
  (log : list (string * retval)) :
  Inv c ->
  nodes c label = Running p ->
  serve failure p (store c) = Some (p', w') ->
  Inv {| store := w'; nodes := setNode c label (Running p');
         returned := log |}.
Proof.
  intros HI Hn Hs. pose proof HI as (N & Wf & Nodes).
  destruct (Nodes label) as [Sf Hd]. rewrite Hn in Sf, Hd.
  cbn [nodeSafe] in Sf. fold (progMemory p) in Hd.
  destruct p as [x|ia prefix k|ia prefix k|ia key data k|ia key k];
    cbn [serve] in Hs; [discriminate| | | |].
  - (* ListValues *)
    destruct Sf as (Lb & A & Sk).
    assert (E : exists r,
               p' = k r /\ w' = store c /\
               (forall kvs kv, r = Ok kvs -> In kv kvs -> In kv (store c))).
    { destruct failure as [e|]; inversion Hs; subst.
      - exists (Err e). repeat split. discriminate.
      - eexists. repeat split. intros kvs kv Eq I. inversion Eq; subst.
        apply filter_In in I. tauto. }
    destruct E as (r & -> & -> & Sub).
    destruct (Sk r) as [Sr Hr].
    apply Inv_setNode; auto. intros F.
    destruct (Hr F) as (kvs & [key v] & item & -> & I & G & Nm & Idq).
    cbn [snd] in G. specialize (Sub _ _ eq_refl I).
    destruct (Wf key v Sub) as (item' & G' & K).
    assert (item' = item) by congruence. subst item'.
    apply (holds_record _ _ v item); auto.
    + apply In_lookup; auto. now rewrite <- K.
    + rewrite Nm. symmetry. now apply Safe_label.
  - (* ListKeys *)
    destruct Sf as (Lb & A & Sk).
    assert (E : exists r, p' = k r /\ w' = store c).
    { destruct failure as [e|]; inversion Hs; subst; eexists; eauto. }
    destruct E as (r & -> & ->). destruct (Sk r) as [Sr Hr].
    apply Inv_setNode; auto. intros F. fold (progMemory (k r)) in F.
    congruence.
  - (* PutIfNotExists *)
    destruct Sf as (Lb & A & id & -> & G & Sk).
    assert (E : (exists r, r <> Ok true /\ p' = k r /\ w' = store c) \/
                (lookup (createKey id) (store c) = None /\
                 p' = k (Ok true) /\
                 w' = (store c ++ [(createKey id, data)])%list)).
    { destruct failure as [e|].
      - inversion Hs; subst. left. exists (Err e). repeat split. discriminate.
      - unfold memPutIfNotExists in Hs.
        destruct (lookup (createKey id) (store c)) eqn:Lk;
          inversion Hs; subst.
        + left. exists (Ok false). repeat split. discriminate.
        + right. auto. }
    destruct E as [(r & Nr & -> & ->)|(Lk & -> & ->)].
    + destruct (Sk r) as [Sr Hr]. apply Inv_setNode; auto.
      intros F. destruct (Hr F) as [Eq _]. contradiction.
    + destruct (Sk (Ok true)) as [Sr Hr]. apply Inv_update; auto.
      * rewrite map_app. apply NoDup_app; auto.
        -- cbn. constructor; [tauto|constructor].
        -- intros a Ia [Eq|[]]. cbn in Eq. subst a.
           now apply (lookup_None _ _ Lk).
      * intros key v I. apply in_app_or in I. destruct I as [I|[Eq|[]]].
        -- now apply Wf.
        -- inversion Eq; subst. eexists. split; [exact G|reflexivity].
      * intros F. destruct (Hr F) as [_ Idq].
        apply (holds_record _ _ data {| Name := label; Id := id |}); auto.
        -- now apply lookup_app_new.
        -- cbn. symmetry. now apply Safe_label.
      * intros l0 _ _ H0 F. destruct (H0 F) as (v & Lv & Gv).
        exists v. split; [now apply lookup_app_old|exact Gv].
  - (* Delete *)
    destruct Sf as (Lb & A & -> & Sk).
    unfold progMemory in Hd. cbn [memory] in Hd.
    destruct failure as [e|]; inversion Hs; subst.
    + destruct (Sk (Err e)) as [Sr Hr]. apply Inv_setNode; auto.
      fold (progMemory (k (Err e))). now rewrite Hr.
    + match goal with
      | |- context [k (Ok ?b)] => destruct (Sk (Ok b)) as [Sr Hr]
      end.
      apply Inv_update; auto.
      * now apply NoDup_keys_filter.
      * intros key v I. apply filter_In in I. apply Wf. tauto.
      * intros F. exfalso. apply (eq_true_false_abs _ F). exact Hr.
      * intros l0 D S0 H0 F. destruct (H0 F) as (v & Lv & Gv).
        exists v. split; [|exact Gv].
        rewrite lookup_filter_other; auto.
        intros Eq. rewrite Eq in Lv.
        destruct (Hd A) as (v' & Lv' & Gv').
        assert (v' = v) by congruence. subst v'.
        rewrite Gv in Gv'. inversion Gv' as [[Nm Idq]].
        apply D. rewrite <- (memory_label _ _ S0). now rewrite Nm.
Qed.

(** A conditional write that the store performs although the client
    reports a failure. *)
Lemma lost_Inv (c : cluster) (label : string) (e : error)
  (p p' : Prog (retval * idAllocator)) (w' : kvstore)
  (log : list (string * retval)) :
  Inv c ->
  nodes c label = Running p ->
  Acquiring p ->
  serveLost e p (store c) = Some (p', w') ->
  Inv {| store := w'; nodes := setNode c label (Running p');
         returned := log |}.
Proof.
  intros HI Hn Ac Hs. pose proof HI as (N & Wf & Nodes).
  destruct (Nodes label) as [Sf Hd]. rewrite Hn in Sf, Hd.
  cbn [nodeSafe] in Sf.
  destruct p as [x|ia prefix k|ia prefix k|ia key data k|ia key k];
    cbn [serveLost] in Hs; [discriminate| | | |elim Ac].
  - apply (serve_Inv c label (Some e) _ p' w' log HI Hn). exact Hs.
  - apply (serve_Inv c label (Some e) _ p' w' log HI Hn). exact Hs.
  - destruct Sf as (Lb & A & id & -> & G & Sk).
    inversion Hs; subst. clear Hs.
    destruct (Sk (Err e)) as [Sr Hr].
    assert (Hh : forall w0, holds w0 (memory (Running (k (Err e))))).
    { intros w0 F. destruct (Hr F) as [Eq _]. discriminate Eq. }
    unfold memPutIfNotExists.
    destruct (lookup (createKey id) (store c)) eqn:Lk; cbn [snd].
    + apply Inv_setNode; auto.
    + apply Inv_update; auto.
      * rewrite map_app. apply NoDup_app; auto.
        -- cbn. constructor; [tauto|constructor].
        -- intros a Ia [Eq|[]]. cbn in Eq. subst a.
           now apply (lookup_None _ _ Lk).
      * intros key v I. apply in_app_or in I. destruct I as [I|[Eq|[]]].
        -- now apply Wf.
        -- inversion Eq; subst. eexists. split; [exact G|reflexivity].
      * intros l0 _ _ H0 F. destruct (H0 F) as (v & Lv & Gv).
        exists v. split; [now apply lookup_app_old|exact Gv].
Qed.

Lemma step_Inv_lossy (c c' : cluster) (a : action) :
  Inv c ->
  ReadsBack (actor a) ->
  (acknowledged a = false -> nodeAcquiring (nodes c (actor a))) ->
  step c a = Some c' -> Inv c'.
Proof.
  intros HI RB Ak Hs. pose proof HI as (N & Wf & Nodes).
  destruct a as [label|label|label failure|label e|label|label];
    cbn [step] in Hs; cbn [actor] in RB, Ak;
    destruct (Nodes label) as [Sf Hd].
  - destruct (nodes c label) as [ia|p] eqn:Hn; inversion Hs; subst.
    cbn in Sf, Hd. rewrite <- Sf in RB.
    destruct (getID_safe ia RB) as [S1 S2].
    apply Inv_setNode; auto.
    + cbn [nodeSafe]. now rewrite <- Sf.
    + fold (progMemory (inCall (fun r => GetIDRet (fst r) (snd r)) (getID ia))).
      now rewrite S2.
  - destruct (nodes c label) as [ia|p] eqn:Hn; inversion Hs; subst.
    cbn in Sf, Hd. destruct (releaseID_safe ia) as [S1 S2].
    apply Inv_setNode; auto.
    + cbn [nodeSafe]. now rewrite <- Sf.
    + fold (progMemory (inCall ReleaseIDRet (releaseID ia))).
      now rewrite S2.
  - destruct (nodes c label) as [ia|p] eqn:Hn; [discriminate|].
    destruct (serve failure p (store c)) as [[p' w']|] eqn:Sv; [|discriminate].
    inversion Hs; subst. eapply serve_Inv; eauto.
  - specialize (Ak eq_refl).
    destruct (nodes c label) as [ia|p] eqn:Hn; [discriminate|].
    destruct (serveLost e p (store c)) as [[p' w']|] eqn:Sv; [|discriminate].
    inversion Hs; subst. eapply lost_Inv; eauto.
  - destruct (nodes c label) as [ia|[x| | | |]] eqn:Hn; inversion Hs; subst.
    cbn in Sf, Hd. apply Inv_setNode; auto. cbn. tauto.
  - inversion Hs; subst. apply Inv_setNode; auto.
    + reflexivity.
    + intros F. discriminate.
Qed.

Lemma step_Inv (c c' : cluster) (a : action) :
  Inv c -> ReadsBack (actor a) -> acknowledged a = true ->
  step c a = Some c' -> Inv c'.
Proof.
  intros HI RB Ak. apply step_Inv_lossy; auto. congruence.
Qed.


(** Two allocators with different labels do not hold one identifier. *)
Lemma Inv_unique (c : cluster) (l1 l2 : string) :
  Inv c ->
  l1 <> l2 ->
  allocated (memory (nodes c l1)) = true ->
  allocated (memory (nodes c l2)) = true ->
  ID (memory (nodes c l1)) <> ID (memory (nodes c l2)).
Proof.
  intros (_ & _ & Nodes) D A1 A2 Eq.
  destruct (Nodes l1) as [S1 H1]. destruct (Nodes l2) as [S2 H2].
  destruct (H1 A1) as (v1 & Lk1 & G1). destruct (H2 A2) as (v2 & Lk2 & G2).
  rewrite Eq in Lk1. assert (v1 = v2) by congruence. subst v2.
  rewrite G1 in G2. inversion G2 as [[Nm Idq]].
  apply D. now rewrite <- (memory_label _ _ S1), <- (memory_label _ _ S2).
Qed.

End ClusterFacts.

(** ** A cluster that only acquires *)

Section AcquireFacts.
Context {Ser : Serializer}.

Lemma AcqInv_start : AcqInv startCluster.
Proof.
  split; [apply Inv_start|]. split; cbn; [auto|tauto].
Qed.

(** A node in the middle of a getID holds nothing yet. *)
Lemma Safe_acquiring_pending (label : string)
  (p p' : Prog (retval * idAllocator)) (failure : option error)
  (w w' : kvstore) :
  Safe label p -> Acquiring p -> serve failure p w = Some (p', w') ->
  allocated (progMemory p) = false /\ Acquiring p'.
Proof.
  intros Sf Ac Hs.
  destruct p as [x|ia prefix k|ia prefix k|ia key data k|ia key k];
    cbn in *; [discriminate| | | |contradiction];
    (split; [tauto|]);
    destruct failure as [e|]; inversion Hs; subst; auto.
  unfold memPutIfNotExists in *.
  destruct (lookup key w); inversion Hs; subst; auto.
Qed.

Lemma Safe_acquiring_lost (label : string)
  (p p' : Prog (retval * idAllocator)) (e : error) (w w' : kvstore) :
  Safe label p -> Acquiring p -> serveLost e p w = Some (p', w') ->
  allocated (progMemory p) = false /\ Acquiring p'.
Proof.
  intros Sf Ac Hs.
  destruct p as [x|ia prefix k|ia prefix k|ia key data k|ia key k];
    cbn in *; [discriminate| | | |contradiction];
    (split; [tauto|]); inversion Hs; subst; auto.
Qed.

Lemma step_AcqInv (c c' : cluster) (a : action) :
  AcqInv c -> ReadsBack (actor a) -> isAcquire a = true ->
  step c a = Some c' -> AcqInv c'.
Proof.
  intros (HI & Ac & Rt) RB Ha Hs.
  split; [eapply step_Inv_lossy; eauto|].
  pose proof HI as (_ & _ & Nodes).
  destruct a as [label|label|label failure|label e|label|label];
    try discriminate; cbn [step] in Hs; cbn [actor] in RB.
  - destruct (nodes c label) as [ia|p] eqn:Hn; inversion Hs; subst.
    cbn [nodes returned]. unfold setNode. split.
    + intros l0. destruct (String.eqb_spec l0 label) as [->|D]; [|apply Ac].
      apply getID_acquiring.
    + intros l0 id I. destruct (String.eqb_spec l0 label) as [->|D];
        [|now apply Rt].
      specialize (Rt _ _ I). rewrite Hn in Rt. cbn [memory] in Rt.
      destruct (Nodes label) as [Sf _]. rewrite Hn in Sf. cbn [nodeSafe] in Sf.
      rewrite <- Sf in RB.
      fold (progMemory (inCall (fun r => GetIDRet (fst r) (snd r)) (getID ia))).
      now rewrite (proj2 (getID_safe ia RB)).
  - destruct (nodes c label) as [ia|p] eqn:Hn; [discriminate|].
    destruct (serve failure p (store c)) as [[p' w']|] eqn:Sv; [|discriminate].
    inversion Hs; subst. cbn [nodes returned]. unfold setNode.
    destruct (Nodes label) as [Sf _]. rewrite Hn in Sf. cbn [nodeSafe] in Sf.
    pose proof (Ac label) as Al. rewrite Hn in Al. cbn [nodeAcquiring] in Al.
    destruct (Safe_acquiring_pending _ _ _ _ _ _ Sf Al Sv) as [Pn Ap].
    split.
    + intros l0. destruct (String.eqb_spec l0 label) as [->|D]; [|apply Ac].
      exact Ap.
    + intros l0 id I. destruct (String.eqb_spec l0 label) as [->|D];
        [|now apply Rt].
      specialize (Rt _ _ I). rewrite Hn in Rt.
      fold (progMemory p) in Rt. destruct Rt as [Rt _]. congruence.
  - destruct (nodes c label) as [ia|p] eqn:Hn; [discriminate|].
    destruct (serveLost e p (store c)) as [[p' w']|] eqn:Sv; [|discriminate].
    inversion Hs; subst. cbn [nodes returned]. unfold setNode.
    destruct (Nodes label) as [Sf _]. rewrite Hn in Sf. cbn [nodeSafe] in Sf.
    pose proof (Ac label) as Al. rewrite Hn in Al. cbn [nodeAcquiring] in Al.
    destruct (Safe_acquiring_lost _ _ _ _ _ _ Sf Al Sv) as [Pn Ap].
    split.
    + intros l0. destruct (String.eqb_spec l0 label) as [->|D]; [|apply Ac].
      exact Ap.
    + intros l0 id I. destruct (String.eqb_spec l0 label) as [->|D];
        [|now apply Rt].
      specialize (Rt _ _ I). rewrite Hn in Rt.
      fold (progMemory p) in Rt. destruct Rt as [Rt _]. congruence.
  - destruct (nodes c label) as [ia|[x| | | |]] eqn:Hn; inversion Hs; subst.
    cbn [nodes returned]. unfold setNode.
    destruct (Nodes label) as [Sf _]. rewrite Hn in Sf. cbn in Sf.
    split.
    + intros l0. destruct (String.eqb_spec l0 label) as [->|D]; [|apply Ac].
      exact I.
    + intros l0 id I. apply in_app_or in I.
      destruct (String.eqb_spec l0 label) as [->|D].
      * cbn [memory]. destruct I as [I|[Eq|[]]].
        -- specialize (Rt _ _ I). now rewrite Hn in Rt.
        -- inversion Eq as [Fx]. rewrite Fx in Sf. tauto.
      * destruct I as [I|[Eq|[]]]; [now apply Rt|].
        inversion Eq. congruence.
Qed.

Lemma execute_AcqInv (schedule : list action) :
  forall c c',
    AcqInv c ->
    Forall (fun a => ReadsBack (actor a)) schedule ->
    forallb isAcquire schedule = true ->
    execute c schedule = Some c' -> AcqInv c'.
Proof.
  induction schedule as [|a rest IH]; intros c c' HI RB Ha H;
    cbn [execute forallb] in *.
  - now inversion H; subst.
  - apply andb_true_iff in Ha. destruct Ha as [Ha Hr].
    inversion RB as [|? ? RBa RBr]; subst.
    destruct (step c a) as [c1|] eqn:S1; [|discriminate].
    eapply IH; [|exact RBr|exact Hr|exact H]. eapply step_AcqInv; eauto.
Qed.

End AcquireFacts.

(** The labels of a schedule that are valid UTF-8 read back from JSON. *)
Lemma jsonSerializer_readsBack_all (schedule : list action) :
  forallb (fun a => String.eqb (coerceUTF8 (actor a)) (actor a)) schedule
  = true ->
  Forall (fun a => @ReadsBack jsonSerializer (actor a)) schedule.
Proof.
  intros H. apply Forall_forall. intros a I.
  rewrite forallb_forall in H. specialize (H a I).
  apply jsonSerializer_readsBack. now apply String.eqb_eq.
Qed.

(** C1: with the records written as JSON, two allocators with different
    labels come to hold the same identifier.  The allocator labelled
    with the byte FF, which is no valid UTF-8, acquires on the empty
    store: it gets identifier 1 and its record is stored with the name
    U+FFFD.  The allocator labelled U+FFFD acquires next: discovery
    finds that record under its own name and adopts identifier 1.  Both
    calls of getID return 1 without error, both allocators are in the
    allocated state with ID 1, and nobody has released or restarted. *)
Theorem cluster_ids_collide :
  invalidLabel <> replacementChar /\
  forallb isAcquire collisionSchedule = true /\
  forallb acknowledged collisionSchedule = true /\
  option_map
    (fun c => (memory (nodes c invalidLabel),
               memory (nodes c replacementChar),
               returned c, store c))
    (@execute jsonSerializer startCluster collisionSchedule) =
  Some ({| serviceLabel := invalidLabel; allocated := true; ID := 1 |},
        {| serviceLabel := replacementChar; allocated := true; ID := 1 |},
        [(invalidLabel, GetIDRet 1 None);
         (replacementChar, GetIDRet 1 None)],
        coercedStore).
Proof.
  split; [discriminate|].
  split; [reflexivity|]. split; [reflexivity|].
  vm_compute. reflexivity.
Qed.

(** * Further properties *)

(** ** Keys that are not canonical *)

Lemma append_cancel (p a b : string) :
  (p ++ a)%string = (p ++ b)%string -> a = b.
Proof.
  intros H.
  pose proof (StringFacts.cutPrefix_app p a) as Ha.
  rewrite H, StringFacts.cutPrefix_app in Ha. now inversion Ha.
Qed.

Lemma Atoi_errors (s : string) (e : error) :
  snd (Strconv.Atoi s) = Some e -> exists kind, e = NumError "Atoi" s kind.
Proof.
  unfold Strconv.Atoi. destruct s as [|c rest]; cbn [snd].
  - intros H. inversion H. now eexists.
  - cbv zeta.
    destruct (if (Ascii.eqb c "-" || Ascii.eqb c "+")%bool
              then rest else String c rest) as [|d ds].
    + intros H. inversion H. now eexists.
    + destruct (Strconv.parseDigits (String d ds) 0) as [un| |].
      * destruct (Ascii.eqb c "-").
        -- destruct (un >? 2 ^ 63); cbn [snd]; intros H; inversion H.
           now eexists.
        -- destruct (un >=? 2 ^ 63); cbn [snd]; intros H; inversion H.
           now eexists.
      * intros H. inversion H. now eexists.
      * destruct (Ascii.eqb c "-"); cbn [snd]; intros H; inversion H;
          now eexists.
Qed.

Lemma createKey_inj (a b : Z) :
  isUint32 a -> isUint32 b -> createKey a = createKey b -> a = b.
Proof.
  intros Ha Hb E.
  pose proof (extractIndexFromKey_createKey a Ha) as Ea.
  rewrite E, (extractIndexFromKey_createKey b Hb) in Ea. now inversion Ea.
Qed.

(** X1: createKey gives different keys to different uint32
    identifiers. *)
Theorem createKey_injective (a b : Z) :
  isUint32 a -> isUint32 b -> createKey a = createKey b -> a = b.
Proof. apply createKey_inj. Qed.

Lemma createKey_injective_witness : 4294967295 = 4294967295.
Proof.
  apply (createKey_injective 4294967295 4294967295).
  - unfold isUint32, maxUint32. simpl. lia.
  - unfold isUint32, maxUint32. simpl. lia.
  - reflexivity.
Defined.

(** X2: extractIndexFromKey answers errInvalidKey exactly for the keys
    that do not begin with "allocatedIDs/"; for a key that has the
    prefix the outcome is that of strconv.Atoi on the remainder, so its
    error, if any, is a NumError about the remainder: the bare prefix
    itself is a syntax error, not an invalid key. *)
Theorem errInvalidKey_iff_foreign (key : string) :
  (snd (extractIndexFromKey key) = Some errInvalidKey <->
   forall rest, key <> (allocatedIDsKeyPrefix ++ rest)%string) /\
  (forall rest e,
     key = (allocatedIDsKeyPrefix ++ rest)%string ->
     snd (extractIndexFromKey key) = Some e ->
     exists kind, e = NumError "Atoi" rest kind) /\
  extractIndexFromKey allocatedIDsKeyPrefix =
    (0, Some (NumError "Atoi" "" ErrSyntax)).
Proof.
  repeat split.
  - intros H rest ->. rewrite extractIndexFromKey_prefixed in H.
    destruct (Atoi_errors _ _ H) as [kind F]. discriminate.
  - intros H. unfold extractIndexFromKey.
    now rewrite (StringFacts.HasPrefix_false _ _ H).
  - intros rest e -> H. rewrite extractIndexFromKey_prefixed in H.
    now apply Atoi_errors.
Qed.

Lemma errInvalidKey_iff_foreign_witness :
  exists kind,
    NumError "Atoi" "x7" ErrSyntax = NumError "Atoi" "x7" kind.
Proof.
  destruct (errInvalidKey_iff_foreign "allocatedIDs/x7") as (_ & H & _).
  apply (H "x7"%string (NumError "Atoi" "x7" ErrSyntax)); reflexivity.
Defined.

(** X3: decoding accepts numerals that createKey never writes: with a
    plus sign or a zero in front of the digits the key is another key
    and decodes to the same identifier. *)
Theorem extractIndexFromKey_not_injective (id : Z) :
  isUint32 id ->
  let plus := (allocatedIDsKeyPrefix ++ String "+" (Strconv.FormatUint id))%string in
  let zero := (allocatedIDsKeyPrefix ++ String "0" (Strconv.FormatUint id))%string in
  extractIndexFromKey plus = (id, None) /\
  extractIndexFromKey zero = (id, None) /\
  plus <> createKey id /\ zero <> createKey id /\ plus <> zero.
Proof.
  intros [Hlo Hhi]. unfold maxUint32 in Hhi. cbn zeta.
  assert (Hp : Strconv.parseDigits (Strconv.FormatUint id) 0 = Strconv.Parsed id)
    by (apply StrconvFacts.parseDigits_FormatUint; lia).
  destruct (StrconvFacts.formatBits_head 19 id EmptyString)
    as (d & rest & Hd & E); [lia|].
  fold (Strconv.FormatUint id) in E.
  assert (G : (id >=? 2 ^ 63) = false)
    by (destruct (Z.geb_spec id (2 ^ 63)); [lia|reflexivity]).
  repeat split.
  - rewrite extractIndexFromKey_prefixed. unfold Strconv.Atoi.
    change (Ascii.eqb "+" "-") with false.
    change (Ascii.eqb "+" "+") with true. cbn [orb].
    rewrite E in *. now rewrite Hp, G.
  - rewrite extractIndexFromKey_prefixed. unfold Strconv.Atoi.
    change (Ascii.eqb "0" "-") with false.
    change (Ascii.eqb "0" "+") with false. cbn [orb].
    change (Strconv.parseDigits (String "0" (Strconv.FormatUint id)) 0)
      with (Strconv.parseDigits (Strconv.FormatUint id) 0).
    now rewrite Hp, G.
  - unfold createKey. intros F. apply append_cancel in F.
    apply (f_equal String.length) in F. cbn in F. lia.
  - unfold createKey. intros F. apply append_cancel in F.
    apply (f_equal String.length) in F. cbn in F. lia.
  - intros F. apply append_cancel in F. discriminate.
Qed.

Lemma extractIndexFromKey_not_injective_witness :
  extractIndexFromKey "allocatedIDs/+42" = (42, None) /\
  extractIndexFromKey "allocatedIDs/042" = (42, None).
Proof.
  destruct (extractIndexFromKey_not_injective 42) as (H1 & H2 & _).
  - unfold isUint32, maxUint32. simpl. lia.
  - split; [exact H1|exact H2].
Defined.

(** ** The first gap on any slice *)

Lemma firstGapFrom_prefix (ids : list Z) :
  forall res,
    minInt <= res ->
    res + Z.of_nat (List.length ids) <= maxInt ->
    let g := firstGapFrom res ids in
    res <= g <= res + Z.of_nat (List.length ids) /\
    (forall i : nat,
       Z.of_nat i < g - res -> nth_error ids i = Some (res + Z.of_nat i)) /\
    (forall v, nth_error ids (Z.to_nat (g - res)) = Some v -> v <> g).
Proof.
  induction ids as [|v rest IH]; intros res Hlo Hlen;
    cbn [firstGapFrom List.length] in *.
  - cbn zeta. repeat split; try lia.
    intros v. rewrite Z.sub_diag. cbn. discriminate.
  - destruct (res =? v) eqn:E.
    + apply Z.eqb_eq in E. subst v.
      rewrite wrapInt_small by (unfold isInt, minInt, maxInt in *; lia).
      destruct (IH (res + 1)) as (H1 & H2 & H3); try lia.
      cbn zeta. repeat split; try lia.
      * intros [|i] Hi; cbn [nth_error].
        -- f_equal. lia.
        -- rewrite H2 by lia. f_equal. lia.
      * intros v.
        replace (Z.to_nat (firstGapFrom (res + 1) rest - res))
          with (S (Z.to_nat (firstGapFrom (res + 1) rest - (res + 1))))
          by lia.
        cbn [nth_error]. apply H3.
    + apply Z.eqb_neq in E. cbn zeta. repeat split; try lia.
      intros v'. rewrite Z.sub_diag. cbn. intros H. inversion H. congruence.
Qed.

(** X4: on any slice, sorted or not, findFirstAvailableIndex returns one
    more than the length of the longest prefix that reads 1, 2, 3, ...:
    the result [r] is between 1 and len + 1, the first r - 1 elements
    are 1, ..., r - 1, and the element after them, if any, is not [r].
    Nothing is said about the elements further on: the result can be
    among them. *)
Theorem findFirstAvailableIndex_dense_prefix (ids : list Z) :
  Z.of_nat (List.length ids) < maxInt ->
  let r := findFirstAvailableIndex ids in
  1 <= r <= Z.of_nat (List.length ids) + 1 /\
  (forall i : nat,
     Z.of_nat i < r - 1 -> nth_error ids i = Some (Z.of_nat i + 1)) /\
  (forall v, nth_error ids (Z.to_nat (r - 1)) = Some v -> v <> r) /\
  (forall m, 1 <= m < r -> In m ids).
Proof.
  intros Hlen. unfold findFirstAvailableIndex.
  destruct (firstGapFrom_prefix ids 1) as (H1 & H2 & H3);
    [unfold minInt; lia | lia |].
  cbn zeta. repeat split; try lia.
  - intros i Hi. rewrite H2 by lia. f_equal. lia.
  - exact H3.
  - intros m Hm. apply (nth_error_In ids (Z.to_nat (m - 1))).
    rewrite H2 by lia. f_equal. lia.
Qed.

Lemma findFirstAvailableIndex_dense_prefix_witness :
  In (findFirstAvailableIndex [1; 1; 2]) [1; 1; 2] /\
  1 <= findFirstAvailableIndex [1; 2; 3; 9; 4] <= 6.
Proof.
  destruct (findFirstAvailableIndex_dense_prefix [1; 2; 3; 9; 4])
    as (H & _); [unfold maxInt; simpl; lia|].
  split; [|exact H]. simpl. tauto.
Defined.

(** ** Sorting before the search *)

Lemma insertInt_head (x : Z) (l : list Z) :
  Forall (fun y => x <= y) l -> insertInt x l = x :: l.
Proof.
  destruct l as [|y l]; cbn [insertInt]; [reflexivity|].
  intros H. inversion H as [|? ? Hy _]; subst.
  destruct (Z.leb_spec x y); [reflexivity|lia].
Qed.

Lemma sortInts_sorted_id (l : list Z) :
  StronglySorted Z.le l -> sortInts l = l.
Proof.
  induction 1 as [|x l Hs IH Hx]; cbn [sortInts]; [reflexivity|].
  rewrite IH. now apply insertInt_head.
Qed.

Lemma insertInt_commute (x y : Z) (l : list Z) :
  insertInt x (insertInt y l) = insertInt y (insertInt x l).
Proof.
  induction l as [|z l IH]; cbn [insertInt].
  - destruct (Z.leb_spec x y), (Z.leb_spec y x); try reflexivity; try lia.
    assert (x = y) by lia. now subst.
  - destruct (Z.leb_spec y z), (Z.leb_spec x z); cbn [insertInt];
      repeat match goal with
             | |- context [?a <=? ?b] => destruct (Z.leb_spec a b)
             end;
      try reflexivity; try lia.
    + assert (x = y) by lia. now subst.
    + now rewrite IH.
Qed.

Lemma sortInts_Permutation_eq (l l' : list Z) :
  Permutation l l' -> sortInts l = sortInts l'.
Proof.
  induction 1 as [|x l l' _ IH|x y l|l l' l'' _ IH1 _ IH2]; cbn [sortInts].
  - reflexivity.
  - now rewrite IH.
  - apply insertInt_commute.
  - now rewrite IH1.
Qed.

Lemma insertInt_Permutation (x : Z) (l : list Z) :
  Permutation (x :: l) (insertInt x l).
Proof.
  induction l as [|y l IH]; cbn [insertInt]; [reflexivity|].
  destruct (x <=? y); [reflexivity|].
  rewrite perm_swap. now apply perm_skip.
Qed.

Lemma sortInts_Permutation (l : list Z) : Permutation l (sortInts l).
Proof.
  induction l as [|x l IH]; cbn [sortInts]; [reflexivity|].
  rewrite <- insertInt_Permutation. now apply perm_skip.
Qed.

Lemma insertInt_sorted (x : Z) (l : list Z) :
  StronglySorted Z.le l -> StronglySorted Z.le (insertInt x l).
Proof.
  induction 1 as [|y l Hs IH Hy]; cbn [insertInt].
  - repeat constructor.
  - destruct (Z.leb_spec x y).
    + constructor; [now constructor|].
      constructor; [lia|]. eapply Forall_impl; [|exact Hy]. cbn. intros; lia.
    + constructor; [exact IH|].
      apply (Permutation_Forall (insertInt_Permutation x l)).
      constructor; [lia|exact Hy].
Qed.

Lemma sortInts_sorted (l : list Z) : StronglySorted Z.le (sortInts l).
Proof.
  induction l as [|x l IH]; cbn [sortInts]; [constructor|].
  now apply insertInt_sorted.
Qed.

Lemma sorted_NoDup_strict (l : list Z) :
  StronglySorted Z.le l -> NoDup l -> StronglySorted Z.lt l.
Proof.
  induction 1 as [|x l Hs IH Hx]; intros N; [constructor|].
  inversion N as [|? ? Nx Nl]; subst. constructor; [now apply IH|].
  rewrite Forall_forall in *. intros y Hy.
  specialize (Hx y Hy). assert (x <> y) by congruence. lia.
Qed.

(** X5: the identifier getID tries next does not depend on the order in
    which the store lists the keys. *)
Theorem candidate_order_independent (ids ids' : list Z) :
  Permutation ids ids' -> candidate ids = candidate ids'.
Proof.
  intros H. unfold candidate. now rewrite (sortInts_Permutation_eq _ _ H).
Qed.

Lemma candidate_order_independent_witness :
  candidate [4; 1; 2] = candidate [2; 4; 1].
Proof.
  apply candidate_order_independent.
  apply (perm_trans (l' := [1; 4; 2])).
  - apply perm_swap.
  - apply (perm_trans (l' := [1; 2; 4])).
    + apply perm_skip, perm_swap.
    + apply (perm_trans (l' := [2; 1; 4])).
      * apply perm_swap.
      * apply perm_skip, perm_swap.
Defined.

(** X6: the candidate is computed modulo 2^32: when the store lists
    exactly 1, ..., n the candidate is (n + 1) mod 2^32, which is 0 once
    all of 1, ..., 2^32 - 1 are taken. *)
Theorem candidate_wraps_at_uint32 (n : nat) :
  Z.of_nat n < maxInt ->
  candidate (oneTo n) = (Z.of_nat n + 1) mod 2 ^ 32 /\
  ((Z.of_nat n = maxUint32) -> candidate (oneTo n) = 0).
Proof.
  intros Hn.
  assert (E : candidate (oneTo n) = (Z.of_nat n + 1) mod 2 ^ 32).
  { unfold candidate, toUint32. rewrite sortInts_sorted_id.
    - unfold findFirstAvailableIndex, oneTo.
      change 1 with (Z.of_nat 1) at 1.
      rewrite (firstGapFrom_seq n 1) by lia. f_equal. lia.
    - unfold oneTo. generalize 1%nat.
      induction n as [|n IH]; intros s; cbn [seq map]; constructor.
      + apply IH. lia.
      + apply Forall_forall. intros y Hy.
        apply in_map_iff in Hy. destruct Hy as (k & <- & Hk).
        apply in_seq in Hk. lia. }
  split; [exact E|]. intros M. rewrite E, M. reflexivity.
Qed.

Lemma candidate_wraps_at_uint32_witness : candidate (oneTo 6) = 7.
Proof.
  destruct (candidate_wraps_at_uint32 6) as [H _].
  - unfold maxInt. simpl. lia.
  - exact H.
Defined.

(** ** getID and releaseID on the store in memory *)

Section MemStoreRuns.
Context {Ser : Serializer}.

Lemma lookup_notin (key : string) (w : kvstore) :
  ~ In key (map fst w) -> lookup key w = None.
Proof.
  induction w as [|[k d] w IH]; cbn [lookup fst snd map In]; [reflexivity|].
  intros H. destruct (String.eqb_spec k key) as [->|N]; [tauto|].
  apply IH. tauto.
Qed.

Lemma lookup_filter_same (key : string) (w : kvstore) :
  lookup key (filter (fun kv => negb (String.eqb (fst kv) key)) w) = None.
Proof.
  induction w as [|[k d] w IH]; cbn [lookup fst snd filter]; [reflexivity|].
  destruct (String.eqb_spec k key) as [->|N]; cbn [negb lookup fst snd]; auto.
  destruct (String.eqb_spec k key); [contradiction|exact IH].
Qed.

Lemma filter_absent_key (key : string) (w : kvstore) :
  lookup key w = None ->
  filter (fun kv => negb (String.eqb (fst kv) key)) w = w.
Proof.
  induction w as [|[k d] w IH]; cbn [lookup fst snd filter]; [reflexivity|].
  destruct (String.eqb_spec k key) as [->|N]; [discriminate|].
  intros H. cbn [negb]. now rewrite IH.
Qed.

Lemma filter_under_createKey (ids : list Z) :
  forall w : kvstore,
    map fst w = map createKey ids ->
    filter (under allocatedIDsKeyPrefix) w = w.
Proof.
  induction ids as [|id ids IH]; intros [|[k d] w] H; cbn [map fst] in H;
    try discriminate; [reflexivity|].
  inversion H as [[Hk Hw]]. cbn [filter].
  rewrite under_createKey. f_equal. now apply IH.
Qed.

Lemma collectIDs_createKey (ids : list Z) :
  forall acc,
    Forall isUint32 ids ->
    collectIDs (map createKey ids) acc = ((acc ++ ids)%list, None).
Proof.
  induction ids as [|n ids IH]; intros acc H; cbn [map collectIDs].
  - now rewrite app_nil_r.
  - inversion H as [|? ? Hn Hns]; subst.
    rewrite (extractIndexFromKey_createKey n Hn).
    rewrite IH by assumption. now rewrite <- app_assoc.
Qed.

Local Arguments createKey : simpl never.
Local Arguments findFirstAvailableIndex : simpl never.
Local Arguments sortInts : simpl never.
Local Arguments toUint32 : simpl never.
Local Arguments wrapInt : simpl never.
Local Arguments Z.gtb : simpl never.
Local Arguments Z.of_nat : simpl never.
Local Arguments Z.to_nat : simpl never.
Local Arguments Z.sub : simpl never.
Local Arguments Z.add : simpl never.

(** One turn of the loop whose candidate is free. *)
Lemma allocLoop_memStore_free (fuel : nat) (attempts : Z) (ia : idAllocator)
  (w : kvstore) (ids : list Z) (v : value) :
  collectIDs (map fst (filter (under allocatedIDsKeyPrefix) w)) [] =
    (ids, None) ->
  Marshal {| Name := serviceLabel ia; Id := candidate ids |} = Ok v ->
  lookup (createKey (candidate ids)) w = None ->
  run memStore (allocLoop (S fuel) attempts ia) w =
  ((candidate ids, None, holding ia (candidate ids)),
   (w ++ [(createKey (candidate ids), v)])%list,
   [EvListKeys allocatedIDsKeyPrefix
      (Ok (map fst (filter (under allocatedIDsKeyPrefix) w)));
    EvPutIfNotExists (createKey (candidate ids)) v (Ok true)]).
Proof.
  intros C M Lk. cbn. rewrite C. cbn.
  fold (candidate ids). rewrite M. cbn.
  unfold memPutIfNotExists. rewrite Lk. reflexivity.
Qed.

(** The loop whose candidate is taken, on a store nobody else changes. *)
Lemma allocLoop_memStore_taken (fuel : nat) :
  forall attempts ia (w : kvstore) (ids : list Z) (v v' : value),
    0 <= attempts <= maxAttempts ->
    maxAttempts - attempts < Z.of_nat fuel ->
    collectIDs (map fst (filter (under allocatedIDsKeyPrefix) w)) [] =
      (ids, None) ->
    Marshal {| Name := serviceLabel ia; Id := candidate ids |} = Ok v ->
    lookup (createKey (candidate ids)) w = Some v' ->
    fst (run memStore (allocLoop fuel attempts ia) w) =
      ((0, Some errUnableToAllocateID,
        {| serviceLabel := serviceLabel ia; allocated := allocated ia;
           ID := candidate ids |}), w) /\
    Z.of_nat (writes (snd (run memStore (allocLoop fuel attempts ia) w))) =
      maxAttempts + 1 - attempts.
Proof.
  induction fuel as [|fuel IH]; intros a ia w ids v v' Ha Hf C M Lk.
  - unfold maxAttempts in *. lia.
  - cbn. rewrite C. cbn. fold (candidate ids). rewrite M. cbn.
    unfold memPutIfNotExists. rewrite Lk. cbn.
    rewrite wrapInt_small
      by (unfold isInt, minInt, maxInt, maxAttempts in *; lia).
    destruct (a + 1 >? maxAttempts) eqn:G; cbn.
    + apply Z.gtb_lt in G. split; [reflexivity|].
      unfold writes, maxAttempts in *. cbn. lia.
    + assert (G' : a + 1 <= maxAttempts)
        by (destruct (Z.gtb_spec (a + 1) maxAttempts); [discriminate|lia]).
      destruct (IH (a + 1)
                  {| serviceLabel := serviceLabel ia;
                     allocated := allocated ia; ID := candidate ids |}
                  w ids v v') as [R1 R2]; auto;
        try (unfold maxAttempts in *; lia).
      destruct (run memStore (allocLoop fuel (a + 1) _) w) as [[x w2] tr2].
      cbn [fst snd] in *. inversion R1; subst. split; [reflexivity|].
      unfold writes, maxAttempts in *. cbn. lia.
Qed.

(** On the store in memory a loop that succeeds has added the record of
    the identifier it returns under a key that was free. *)
Lemma allocLoop_memStore_fresh (fuel : nat) :
  forall attempts ia w id ia' w' tr,
    run memStore (allocLoop fuel attempts ia) w = ((id, None, ia'), w', tr) ->
    exists v,
      lookup (createKey id) w = None /\
      w' = (w ++ [(createKey id, v)])%list /\
      ia' = holding ia id.
Proof.
  induction fuel as [|fuel IH]; intros a ia w id ia' w' tr H.
  - cbn in H. discriminate.
  - cbn in H.
    destruct (collectIDs _ []) as [ids [e|]]; cbn in H; [discriminate|].
    destruct (Marshal _) as [v|e] eqn:M; cbn in H; [|discriminate].
    unfold memPutIfNotExists in H.
    destruct (lookup _ w) eqn:Lk; cbn in H.
    + destruct (wrapInt (a + 1) >? maxAttempts); cbn in H; [discriminate|].
      destruct (run memStore (allocLoop fuel _ _) w) as [[x w2] tr2] eqn:R.
      destruct x as [[id2 [e|]] ia2]; inversion H; subst.
      destruct (IH _ _ _ _ _ _ _ R) as (v' & M' & -> & ->).
      exists v'. now repeat split.
    + inversion H; subst. exists v. now repeat split.
Qed.

End MemStoreRuns.

Section MemStoreTheorems.
Context {Ser : Serializer}.

Local Arguments createKey : simpl never.
Local Arguments findFirstAvailableIndex : simpl never.
Local Arguments sortInts : simpl never.
Local Arguments toUint32 : simpl never.
Local Arguments candidate : simpl never.

Lemma scanEntries_noRecord (label : string) (kvs : list (string * value)) :
  noRecordOf label kvs -> scanEntries label kvs = (None, None).
Proof.
  induction 1 as [|kv kvs (item & G & N) _ IH]; cbn [scanEntries];
    [reflexivity|].
  rewrite G. apply String.eqb_neq in N. now rewrite N.
Qed.

Lemma getID_memStore_loop (label : string) (w : kvstore) :
  scanEntries label (filter (under allocatedIDsKeyPrefix) w) = (None, None) ->
  run memStore (getID (newIDAllocator label)) w =
  (let '(x, w', tr) :=
     run memStore
       (allocLoop (S (Z.to_nat maxAttempts)) 0 (newIDAllocator label)) w in
   (x, w',
    EvListValues allocatedIDsKeyPrefix
      (Ok (filter (under allocatedIDsKeyPrefix) w)) :: tr)).
Proof.
  intros S0. unfold getID, bind, self, findExistingEntry, brokerListValues.
  cbn -[allocLoop]. rewrite S0. reflexivity.
Qed.

Lemma releaseID_memStore (ia : idAllocator) (w : kvstore) :
  allocated ia = true ->
  run memStore (releaseID ia) w =
  ((None, released ia),
   filter (fun kv => negb (String.eqb (fst kv) (createKey (ID ia)))) w,
   [EvDelete (createKey (ID ia))
      (Ok (match lookup (createKey (ID ia)) w with
           | Some _ => true
           | None => false
           end))]).
Proof.
  intros A. unfold releaseID, bind, self, brokerDelete.
  cbn [bindProg fst snd]. rewrite A. reflexivity.
Qed.

End MemStoreTheorems.

(** X7: on a store nobody else writes to, whose keys are the canonical
    keys of distinct positive uint32 identifiers (not all of them taken)
    and which has no record of this service label, getID of a new
    allocator takes the least positive identifier that is free, whatever
    the order of the keys: it lists the values, lists the keys, creates
    the record under the key of that identifier and changes nothing
    else. *)
Theorem getID_allocates_least_missing {Ser : Serializer} (label : string)
  (w : kvstore) (ids : list Z) (v : value) :
  map fst w = map createKey ids ->
  NoDup ids ->
  Forall (fun id => 1 <= id <= maxUint32) ids ->
  Z.of_nat (List.length ids) < maxUint32 ->
  noRecordOf label w ->
  Marshal {| Name := label; Id := findFirstAvailableIndex (sortInts ids) |}
    = Ok v ->
  let g := findFirstAvailableIndex (sortInts ids) in
  leastMissing ids g /\
  run memStore (getID (newIDAllocator label)) w =
    ((g, None, holding (newIDAllocator label) g),
     (w ++ [(createKey g, v)])%list,
     [EvListValues allocatedIDsKeyPrefix (Ok w);
      EvListKeys allocatedIDsKeyPrefix (Ok (map fst w));
      EvPutIfNotExists (createKey g) v (Ok true)]).
Proof.
  intros Hk Nd Hpos Hlen S0 M. cbn zeta.
  set (g := findFirstAvailableIndex (sortInts ids)) in *.
  assert (Hu : Forall isUint32 ids).
  { eapply Forall_impl; [|exact Hpos]. unfold isUint32. cbn. intros; lia. }
  assert (Hs : StronglySorted Z.lt (sortInts ids)).
  { apply sorted_NoDup_strict; [apply sortInts_sorted|].
    apply (Permutation_NoDup (sortInts_Permutation ids) Nd). }
  assert (Hp : Forall (fun v => 1 <= v) (sortInts ids)).
  { apply (Permutation_Forall (sortInts_Permutation ids)).
    eapply Forall_impl; [|exact Hpos]. cbn. intros; lia. }
  assert (Hl : List.length (sortInts ids) = List.length ids)
    by (symmetry; apply Permutation_length, sortInts_Permutation).
  assert (Hm : Z.of_nat (List.length (sortInts ids)) < maxInt)
    by (unfold maxUint32, maxInt in *; lia).
  destruct (firstGapFrom_spec (sortInts ids) 1) as (G1 & G2 & G3);
    trivial; try lia.
  fold (findFirstAvailableIndex (sortInts ids)) in G1, G2, G3.
  fold g in G1, G2, G3.
  assert (LM : leastMissing ids g).
  { split; [exact G1|]. split.
    - intros I. apply G2.
      apply (Permutation_in _ (sortInts_Permutation ids) I).
    - intros m Hm1 Hm2.
      destruct (Z_le_gt_dec g m) as [Le|Gt]; [exact Le|].
      elim Hm2.
      apply (Permutation_in _ (Permutation_sym (sortInts_Permutation ids))).
      apply G3. lia. }
  split; [exact LM|].
  assert (Hg : 1 <= g <= maxUint32).
  { destruct (firstGapFrom_prefix (sortInts ids) 1) as (B & _);
      [unfold minInt; lia | lia |].
    fold (findFirstAvailableIndex (sortInts ids)) in B. fold g in B.
    unfold maxUint32 in *. lia. }
  assert (Cg : candidate ids = g).
  { unfold candidate, toUint32. fold g. apply Z.mod_small.
    unfold maxUint32 in Hg. lia. }
  pose proof (filter_under_createKey ids w Hk) as Fw.
  rewrite getID_memStore_loop
    by (rewrite Fw; now apply scanEntries_noRecord).
  rewrite (allocLoop_memStore_free _ _ _ w ids v).
  - rewrite Fw, Cg. reflexivity.
  - rewrite Fw, Hk. apply (collectIDs_createKey ids [] Hu).
  - rewrite Cg. exact M.
  - rewrite Cg. apply lookup_notin. rewrite Hk. intros I.
    apply in_map_iff in I. destruct I as (id & E & I).
    destruct LM as (_ & N & _). apply N.
    rewrite Forall_forall in Hu.
    rewrite <- (createKey_inj id g); auto.
    unfold isUint32. lia.
Qed.

Lemma getID_allocates_least_missing_witness :
  run (@memStore plainSerializer) (getID (newIDAllocator "d"))
    [("allocatedIDs/3"%string, {| Name := "c"; Id := 3 |});
     ("allocatedIDs/1"%string, {| Name := "a"; Id := 1 |})] =
  ((2, None, {| serviceLabel := "d"; allocated := true; ID := 2 |}),
   [("allocatedIDs/3"%string, {| Name := "c"; Id := 3 |});
    ("allocatedIDs/1"%string, {| Name := "a"; Id := 1 |});
    ("allocatedIDs/2"%string, {| Name := "d"; Id := 2 |})],
   [@EvListValues plainSerializer "allocatedIDs/"
      (Ok [("allocatedIDs/3"%string, {| Name := "c"; Id := 3 |});
           ("allocatedIDs/1"%string, {| Name := "a"; Id := 1 |})]);
    @EvListKeys plainSerializer "allocatedIDs/"
      (Ok ["allocatedIDs/3"%string; "allocatedIDs/1"%string]);
    @EvPutIfNotExists plainSerializer "allocatedIDs/2"
      {| Name := "d"; Id := 2 |} (Ok true)]).
Proof.
  apply (@getID_allocates_least_missing plainSerializer "d"
           [("allocatedIDs/3"%string, {| Name := "c"; Id := 3 |});
            ("allocatedIDs/1"%string, {| Name := "a"; Id := 1 |})]
           [3; 1] {| Name := "d"; Id := 2 |}).
  - reflexivity.
  - repeat constructor; simpl; intuition discriminate.
  - repeat constructor; unfold maxUint32; simpl; lia.
  - unfold maxUint32. simpl. lia.
  - repeat constructor; eexists; (split; [reflexivity|discriminate]).
  - reflexivity.
Defined.

(** X8: on a store nobody else changes, when the key of the candidate
    is already there although discovery found no record of the label
    (keys that spell a number below 1, or the same number twice, make
    it so), getID tries that same key eleven times, leaves the store as
    it is and fails with errUnableToAllocateID; the allocator holds
    nothing and its ID field is left at the candidate. *)
Theorem getID_spins_on_taken_candidate {Ser : Serializer} (label : string)
  (w : kvstore) (ids : list Z) (v v' : value) :
  noRecordOf label (filter (under allocatedIDsKeyPrefix) w) ->
  collectIDs (map fst (filter (under allocatedIDsKeyPrefix) w)) [] =
    (ids, None) ->
  Marshal {| Name := label; Id := candidate ids |} = Ok v ->
  lookup (createKey (candidate ids)) w = Some v' ->
  fst (run memStore (getID (newIDAllocator label)) w) =
    ((0, Some errUnableToAllocateID,
      {| serviceLabel := label; allocated := false; ID := candidate ids |}),
     w) /\
  Z.of_nat (writes (snd (run memStore (getID (newIDAllocator label)) w))) =
    maxAttempts + 1.
Proof.
  intros S0 C M Lk.
  rewrite getID_memStore_loop by (now apply scanEntries_noRecord).
  destruct (allocLoop_memStore_taken (S (Z.to_nat maxAttempts)) 0
              (newIDAllocator label) w ids v v') as [R1 R2]; auto;
    try (unfold maxAttempts; cbn; lia).
  destruct (run memStore (allocLoop _ 0 _) w) as [[x w2] tr2].
  cbn [fst snd] in *. inversion R1; subst. split; [reflexivity|].
  unfold writes in *. cbn. exact R2.
Qed.

Lemma getID_spins_on_taken_candidate_witness :
  fst (run (@memStore plainSerializer) (getID (newIDAllocator "n"))
         [("allocatedIDs/1"%string, {| Name := "a"; Id := 1 |});
          ("allocatedIDs/01"%string, {| Name := "b"; Id := 1 |});
          ("allocatedIDs/2"%string, {| Name := "c"; Id := 2 |})]) =
  ((0, Some errUnableToAllocateID,
    {| serviceLabel := "n"; allocated := false; ID := 2 |}),
   [("allocatedIDs/1"%string, {| Name := "a"; Id := 1 |});
    ("allocatedIDs/01"%string, {| Name := "b"; Id := 1 |});
    ("allocatedIDs/2"%string, {| Name := "c"; Id := 2 |})]).
Proof.
  apply (@getID_spins_on_taken_candidate plainSerializer "n"
           [("allocatedIDs/1"%string, {| Name := "a"; Id := 1 |});
            ("allocatedIDs/01"%string, {| Name := "b"; Id := 1 |});
            ("allocatedIDs/2"%string, {| Name := "c"; Id := 2 |})]
           [1; 1; 2] {| Name := "n"; Id := 2 |} {| Name := "c"; Id := 2 |});
    try reflexivity.
  repeat constructor; eexists; (split; [reflexivity|discriminate]).
Defined.

(** X9: on the store in memory releaseID of an allocator that holds an
    identifier removes the key of that identifier, whatever record is
    stored there, and leaves every other key as it is. *)
Theorem releaseID_removes_its_key {Ser : Serializer} (ia : idAllocator)
  (w : kvstore) :
  allocated ia = true ->
  let r := run memStore (releaseID ia) w in
  fst (fst r) = (None, released ia) /\
  lookup (createKey (ID ia)) (snd (fst r)) = None /\
  (forall key,
     key <> createKey (ID ia) -> lookup key (snd (fst r)) = lookup key w).
Proof.
  intros A. cbn zeta.
  rewrite (releaseID_memStore ia w A). cbn [fst snd].
  repeat split.
  - apply lookup_filter_same.
  - intros key N. now apply lookup_filter_other.
Qed.

Lemma releaseID_removes_its_key_witness :
  lookup "allocatedIDs/2"
    (snd (fst (run (@memStore plainSerializer)
                 (releaseID {| serviceLabel := "n"; allocated := true;
                               ID := 2 |})
                 [("allocatedIDs/1"%string, {| Name := "a"; Id := 1 |});
                  ("allocatedIDs/2"%string, {| Name := "b"; Id := 2 |})])))
  = None.
Proof.
  apply (@releaseID_removes_its_key plainSerializer
           {| serviceLabel := "n"; allocated := true; ID := 2 |}).
  reflexivity.
Defined.

(** X10: on a store nobody else writes to, releaseID right after a getID
    that created a record puts the store back exactly as it was before
    the getID, and the allocator holds nothing. *)
Theorem getID_then_releaseID_restores {Ser : Serializer} (label : string)
  (w w' : kvstore) (k : Z) (ia' : idAllocator) (tr : list event) :
  run memStore (getID (newIDAllocator label)) w = ((k, None, ia'), w', tr) ->
  writes tr <> 0%nat ->
  fst (run memStore (releaseID ia') w') = ((None, released ia'), w).
Proof.
  intros H Hw.
  unfold getID, bind, self, findExistingEntry, brokerListValues in H.
  cbn -[allocLoop filter] in H.
  destruct (scanEntries label (filter (under allocatedIDsKeyPrefix) w))
    as [[item|] [e|]] eqn:S0; cbn -[allocLoop filter] in H;
    try discriminate.
  - inversion H; subst. now elim Hw.
  - destruct (run memStore (allocLoop _ 0 _) w) as [[x w2] tr2] eqn:R.
    inversion H; subst.
    destruct (allocLoop_memStore_fresh _ _ _ _ _ _ _ _ R)
      as (v & Lk & -> & ->).
    rewrite releaseID_memStore by reflexivity. cbn [fst snd holding ID].
    f_equal. rewrite filter_app. cbn [filter fst].
    rewrite String.eqb_refl. cbn [negb].
    rewrite (filter_absent_key _ _ Lk). now rewrite app_nil_r.
Qed.

Lemma getID_then_releaseID_restores_witness :
  fst (run (@memStore plainSerializer)
         (releaseID {| serviceLabel := "d"; allocated := true; ID := 2 |})
         [("allocatedIDs/3"%string, {| Name := "c"; Id := 3 |});
          ("allocatedIDs/1"%string, {| Name := "a"; Id := 1 |});
          ("allocatedIDs/2"%string, {| Name := "d"; Id := 2 |})]) =
  ((None, {| serviceLabel := "d"; allocated := false; ID := 2 |}),
   [("allocatedIDs/3"%string, {| Name := "c"; Id := 3 |});
    ("allocatedIDs/1"%string, {| Name := "a"; Id := 1 |})]).
Proof.
  eapply (@getID_then_releaseID_restores plainSerializer "d"
            [("allocatedIDs/3"%string, {| Name := "c"; Id := 3 |});
             ("allocatedIDs/1"%string, {| Name := "a"; Id := 1 |})]).
  - vm_compute. reflexivity.
  - vm_compute. discriminate.
Defined.

(** ** What stops getID before it writes *)

Section Aborts.
Context {Ser : Serializer}.

Lemma collectIDs_good (pre rest : list string) :
  forall acc,
    Forall (fun k => snd (extractIndexFromKey k) = None) pre ->
    collectIDs (pre ++ rest) acc =
    collectIDs rest (acc ++ map (fun k => fst (extractIndexFromKey k)) pre).
Proof.
  induction pre as [|k pre IH]; intros acc H; cbn [app map collectIDs].
  - now rewrite app_nil_r.
  - inversion H as [|? ? Hk Hpre]; subst.
    destruct (extractIndexFromKey k) as [id err]. cbn [fst snd] in *.
    subst err. rewrite IH by assumption. now rewrite <- app_assoc.
Qed.

Lemma collectIDs_bad (pre post : list string) (bad : string) (x : Z)
  (e : error) (acc : list Z) :
  Forall (fun k => snd (extractIndexFromKey k) = None) pre ->
  extractIndexFromKey bad = (x, Some e) ->
  collectIDs (pre ++ bad :: post) acc = ([], Some e).
Proof.
  intros Hpre Hbad. rewrite collectIDs_good by assumption.
  cbn [collectIDs]. now rewrite Hbad.
Qed.

Lemma scanEntries_unreadable (label : string) (key : string) (bad : value)
  (e : error) (post : list (string * value)) :
  forall pre,
    noRecordOf label pre ->
    GetValue bad = Err e ->
    scanEntries label (pre ++ (key, bad) :: post) = (None, Some e).
Proof.
  induction pre as [|kv pre IH]; intros Hpre Hv; cbn [app scanEntries snd].
  - now rewrite Hv.
  - inversion Hpre as [|? ? (item & Hi & Hn) Hpre']; subst.
    rewrite Hi. apply String.eqb_neq in Hn. rewrite Hn. now apply IH.
Qed.

End Aborts.

(** X11: when the listing of the keys holds a key that does not decode
    (no number after the prefix, or one too large for an int), getID of
    an allocator that found no record of its own returns identifier 0
    with the decoding error of the first such key, after the two
    listings and without a write; the allocator is left as it was.  One
    such key stops every allocation. *)
Theorem getID_blocked_by_undecodable_key {Ser : Serializer} {W : Type}
  (st : Store W) (w w1 w2 : W) (ia : idAllocator)
  (kvs : list (string * value)) (pre post : list string) (bad : string)
  (x : Z) (e : error) :
  allocated ia = false ->
  doListValues st allocatedIDsKeyPrefix w = (Ok kvs, w1) ->
  noRecordOf (serviceLabel ia) kvs ->
  doListKeys st allocatedIDsKeyPrefix w1 = (Ok (pre ++ bad :: post), w2) ->
  Forall (fun k => snd (extractIndexFromKey k) = None) pre ->
  extractIndexFromKey bad = (x, Some e) ->
  run st (getID ia) w =
    ((0, Some e, ia), w2,
     [EvListValues allocatedIDsKeyPrefix (Ok kvs);
      EvListKeys allocatedIDsKeyPrefix (Ok (pre ++ bad :: post))]).
Proof.
  intros A D S0 K Hpre Hbad.
  unfold getID, bind, self. cbn. rewrite A. cbn. rewrite D. cbn.
  rewrite (scanEntries_noRecord _ _ S0). cbn. rewrite K. cbn.
  rewrite (collectIDs_bad pre post bad x e [] Hpre Hbad). reflexivity.
Qed.

Lemma getID_blocked_by_undecodable_key_witness :
  run (@memStore plainSerializer) (getID (newIDAllocator "n"))
    [("allocatedIDs/1"%string, {| Name := "a"; Id := 1 |});
     ("allocatedIDs/node-b"%string, {| Name := "b"; Id := 2 |})] =
  ((0, Some (NumError "Atoi" "node-b" ErrSyntax), newIDAllocator "n"),
   [("allocatedIDs/1"%string, {| Name := "a"; Id := 1 |});
    ("allocatedIDs/node-b"%string, {| Name := "b"; Id := 2 |})],
   [@EvListValues plainSerializer "allocatedIDs/"
      (Ok [("allocatedIDs/1"%string, {| Name := "a"; Id := 1 |});
           ("allocatedIDs/node-b"%string, {| Name := "b"; Id := 2 |})]);
    @EvListKeys plainSerializer "allocatedIDs/"
      (Ok ["allocatedIDs/1"%string; "allocatedIDs/node-b"%string])]).
Proof.
  apply (@getID_blocked_by_undecodable_key plainSerializer _
           (@memStore plainSerializer)
           [("allocatedIDs/1"%string, {| Name := "a"; Id := 1 |});
            ("allocatedIDs/node-b"%string, {| Name := "b"; Id := 2 |})]
           [("allocatedIDs/1"%string, {| Name := "a"; Id := 1 |});
            ("allocatedIDs/node-b"%string, {| Name := "b"; Id := 2 |})]
           [("allocatedIDs/1"%string, {| Name := "a"; Id := 1 |});
            ("allocatedIDs/node-b"%string, {| Name := "b"; Id := 2 |})]
           (newIDAllocator "n")
           [("allocatedIDs/1"%string, {| Name := "a"; Id := 1 |});
            ("allocatedIDs/node-b"%string, {| Name := "b"; Id := 2 |})]
           ["allocatedIDs/1"%string] [] "allocatedIDs/node-b" 0
           (NumError "Atoi" "node-b" ErrSyntax)).
  - reflexivity.
  - reflexivity.
  - repeat constructor; eexists; (split; [reflexivity|discriminate]).
  - reflexivity.
  - repeat constructor.
  - reflexivity.
Defined.

(** X12: discovery stops at the first value it cannot read: getID
    returns identifier 0 with the reading error after the one listing,
    without looking at the records behind it (the allocator's own
    record may be among them) and without a write; the allocator is
    left as it was. *)
Theorem getID_aborts_on_unreadable_value {Ser : Serializer} {W : Type}
  (st : Store W) (w w1 : W) (ia : idAllocator)
  (pre post : list (string * value)) (key : string) (bad : value)
  (e : error) :
  allocated ia = false ->
  doListValues st allocatedIDsKeyPrefix w =
    (Ok (pre ++ (key, bad) :: post), w1) ->
  noRecordOf (serviceLabel ia) pre ->
  GetValue bad = Err e ->
  run st (getID ia) w =
    ((0, Some e, ia), w1,
     [EvListValues allocatedIDsKeyPrefix (Ok (pre ++ (key, bad) :: post))]).
Proof.
  intros A D Hpre Hv.
  unfold getID, bind, self. cbn. rewrite A. cbn. rewrite D. cbn.
  rewrite (scanEntries_unreadable _ key bad e post pre Hpre Hv). reflexivity.
Qed.

Lemma getID_aborts_on_unreadable_value_witness :
  run (@memStore jsonSerializer) (getID (newIDAllocator "n"))
    [("allocatedIDs/1"%string, Some {| Name := "a"; Id := 1 |});
     ("allocatedIDs/2"%string, None);
     ("allocatedIDs/3"%string, Some {| Name := "n"; Id := 3 |})] =
  ((0, Some (ExternalError "unexpected end of JSON input"),
    newIDAllocator "n"),
   [("allocatedIDs/1"%string, Some {| Name := "a"; Id := 1 |});
    ("allocatedIDs/2"%string, None);
    ("allocatedIDs/3"%string, Some {| Name := "n"; Id := 3 |})],
   [@EvListValues jsonSerializer "allocatedIDs/"
      (Ok [("allocatedIDs/1"%string, Some {| Name := "a"; Id := 1 |});
           ("allocatedIDs/2"%string, None);
           ("allocatedIDs/3"%string, Some {| Name := "n"; Id := 3 |})])]).
Proof.
  apply (@getID_aborts_on_unreadable_value jsonSerializer _
           (@memStore jsonSerializer)
           [("allocatedIDs/1"%string, Some {| Name := "a"; Id := 1 |});
            ("allocatedIDs/2"%string, None);
           ("allocatedIDs/3"%string, Some {| Name := "n"; Id := 3 |})]
           [("allocatedIDs/1"%string, Some {| Name := "a"; Id := 1 |});
            ("allocatedIDs/2"%string, None);
            ("allocatedIDs/3"%string, Some {| Name := "n"; Id := 3 |})]
           (newIDAllocator "n")
           [("allocatedIDs/1"%string, Some {| Name := "a"; Id := 1 |})]
           [("allocatedIDs/3"%string, Some {| Name := "n"; Id := 3 |})]
           "allocatedIDs/2" None
           (ExternalError "unexpected end of JSON input")).
  - reflexivity.
  - reflexivity.
  - repeat constructor; eexists; (split; [reflexivity|discriminate]).
  - reflexivity.
Defined.

(** ** What getID asks of the store and how it ends *)

Section UseFacts.
Context {Ser : Serializer}.

Local Arguments createKey : simpl never.
Local Arguments findFirstAvailableIndex : simpl never.
Local Arguments sortInts : simpl never.
Local Arguments toUint32 : simpl never.
Local Arguments wrapInt : simpl never.
Local Arguments Z.gtb : simpl never.
Local Arguments Z.of_nat : simpl never.
Local Arguments Z.add : simpl never.
Local Arguments Z.sub : simpl never.
Local Arguments Z.mul : simpl never.

Lemma toUint32_isUint32 (z : Z) : isUint32 (toUint32 z).
Proof.
  unfold isUint32, toUint32, maxUint32.
  pose proof (Z.mod_pos_bound z (2 ^ 32)). lia.
Qed.

Ltac use_leaf :=
  unfold LoopUse, GetIDUse, maxAttempts in *; cbn;
  repeat split; intros; auto; try discriminate; try congruence; try lia;
  try (repeat first [apply Forall_nil | apply Forall_cons];
       first [reflexivity | auto]; fail);
  fail.

Lemma allocLoop_use (fuel : nat) :
  forall attempts ia,
    allocated ia = false ->
    0 <= attempts <= maxAttempts ->
    maxAttempts - attempts < Z.of_nat fuel ->
    Paths (allocLoop fuel attempts ia) (LoopUse ia attempts).
Proof.
  induction fuel as [|fuel IH]; intros a ia A Ha Hf.
  - unfold maxAttempts in *. lia.
  - cbn. intros [keys|e]; cbn; [|use_leaf].
    destruct (collectIDs keys []) as [ids [e|]]; cbn; [use_leaf|].
    destruct (Marshal _) as [v|e] eqn:M; cbn; [|use_leaf].
    assert (Own : getIDCall (serviceLabel ia)
                    (EvListKeys allocatedIDsKeyPrefix (Ok keys)))
      by reflexivity.
    assert (Wr : forall r,
               getIDCall (serviceLabel ia)
                 (EvPutIfNotExists
                    (createKey
                       (toUint32 (findFirstAvailableIndex (sortInts ids))))
                    v r)).
    { intros r. eexists. split; [apply toUint32_isUint32|].
      split; [reflexivity|exact M]. }
    intros [[|]|e]; cbn; [use_leaf| |use_leaf].
    rewrite wrapInt_small
      by (unfold isInt, minInt, maxInt, maxAttempts in *; lia).
    destruct (a + 1 >? maxAttempts) eqn:G; cbn; [use_leaf|].
    assert (G' : a + 1 <= maxAttempts)
      by (destruct (Z.gtb_spec (a + 1) maxAttempts); [discriminate|lia]).
    eapply Paths_mono;
      [|apply IH; [exact A | unfold maxAttempts in *; lia
                   | unfold maxAttempts in *; lia]].
    intros tr x (H1 & H2 & H3 & H4). unfold LoopUse in *.
    split; [exact H1|]. split; [exact H2|]. split.
    + cbn [List.length]. unfold maxAttempts in *. lia.
    + apply Forall_cons; [exact Own|].
      apply Forall_cons; [apply Wr|exact H4].
Qed.

Lemma getID_use (ia : idAllocator) : Paths (getID ia) (GetIDUse ia).
Proof.
  unfold getID, bind, self. cbn -[allocLoop].
  destruct (allocated ia) eqn:A; cbn -[allocLoop]; [use_leaf|].
  assert (Own : forall r,
             getIDCall (serviceLabel ia)
               (EvListValues allocatedIDsKeyPrefix r))
    by reflexivity.
  intros [kvs|e]; cbn -[allocLoop]; [|use_leaf].
  destruct (scanEntries (serviceLabel ia) kvs) as [[item|] [e|]];
    cbn -[allocLoop]; try use_leaf.
  eapply Paths_mono;
    [|apply (allocLoop_use _ 0 ia A); unfold maxAttempts; cbn; lia].
  intros tr x (H1 & H2 & H3 & H4). unfold GetIDUse.
  split; [exact H1|]. split; [exact H2|]. split.
  - cbn [List.length]. unfold maxAttempts in *. lia.
  - apply Forall_cons; [apply Own|exact H4].
Qed.

End UseFacts.

(** X14: whatever the store does, getID leaves the service label as it
    is; when it returns an error the identifier returned is 0 and the
    allocator holds nothing, and when it returns no error the allocator
    holds the identifier returned. *)
Theorem getID_outcome {Ser : Serializer} {W : Type} (st : Store W) (w : W)
  (ia : idAllocator) :
  let x := fst (fst (run st (getID ia) w)) in
  serviceLabel (snd x) = serviceLabel ia /\
  (forall e, snd (fst x) = Some e ->
             fst (fst x) = 0 /\ allocated (snd x) = false) /\
  (snd (fst x) = None ->
   allocated (snd x) = true /\ ID (snd x) = fst (fst x)).
Proof.
  cbn zeta.
  pose proof (Paths_run st (getID ia) _ w (getID_use ia)) as (U1 & U2 & _).
  pose proof (Paths_run st (getID ia) _ w (getID_paths ia))
    as (_ & _ & _ & _ & P).
  split; [exact U1|]. split; [exact U2|exact P].
Qed.

(** X15: whatever the store does, getID makes at most
    2 * (maxAttempts + 1) + 1 = 23 calls on it; each is a listing under
    "allocatedIDs/" or a conditional write of a record of its own
    service label under the key of the record's uint32 identifier, and
    none is a delete. *)
Theorem getID_store_calls {Ser : Serializer} {W : Type} (st : Store W)
  (w : W) (ia : idAllocator) :
  let tr := snd (run st (getID ia) w) in
  Z.of_nat (List.length tr) <= 23 /\
  Forall (getIDCall (serviceLabel ia)) tr.
Proof.
  cbn zeta.
  pose proof (Paths_run st (getID ia) _ w (getID_use ia)) as (_ & _ & U3 & U4).
  split; [exact U3|exact U4].
Qed.
(** ** More invariants of the cluster *)

Section CanonicalFacts.
Context {Ser : Serializer}.
Hypothesis RB : ReadsBackId Ser.

Local Arguments createKey : simpl never.
Local Arguments findFirstAvailableIndex : simpl never.
Local Arguments sortInts : simpl never.
Local Arguments toUint32 : simpl never.
Local Arguments wrapInt : simpl never.
Local Arguments Z.gtb : simpl never.

Lemma allocLoop_canonical (fuel : nat) :
  forall attempts ia,
    Canonical (inCall (fun r => GetIDRet (fst r) (snd r))
                 (allocLoop fuel attempts ia)).
Proof.
  induction fuel as [|fuel IH]; intros a ia; cbn; [exact I|].
  intros [keys|e]; cbn; [|exact I].
  destruct (collectIDs keys []) as [ids [e|]]; cbn; [exact I|].
  destruct (Marshal _) as [v|e] eqn:M; cbn; [|exact I].
  split.
  - destruct (RB _ _ M) as (item & G & E). cbn [Id] in E.
    exists item. split; [exact G|now rewrite E].
  - intros [[|]|e]; cbn; try exact I.
    destruct (wrapInt (a + 1) >? maxAttempts); cbn; [exact I|apply IH].
Qed.

Lemma getID_canonical (ia : idAllocator) :
  Canonical (inCall (fun r => GetIDRet (fst r) (snd r)) (getID ia)).
Proof.
  unfold getID, bind, self, inCall. cbn -[allocLoop].
  destruct (allocated ia); cbn -[allocLoop]; [exact I|].
  intros [kvs|e]; cbn -[allocLoop]; [|exact I].
  destruct (scanEntries (serviceLabel ia) kvs) as [[item|] [e|]];
    cbn -[allocLoop]; try exact I.
  apply allocLoop_canonical.
Qed.

Lemma releaseID_canonical (ia : idAllocator) :
  Canonical (inCall ReleaseIDRet (releaseID ia)).
Proof.
  unfold releaseID, bind, self, inCall. cbn.
  destruct (allocated ia); cbn; [|exact I].
  intros [b|e]; cbn; exact I.
Qed.

Lemma canonicalStore_put (key : string) (data : value) (w : kvstore) :
  canonicalStore w ->
  (exists item, GetValue data = Ok item /\ key = createKey (Id item)) ->
  canonicalStore (snd (memPutIfNotExists key data w)).
Proof.
  intros [N Wf] Hd. unfold memPutIfNotExists.
  destruct (lookup key w) eqn:Lk; cbn [snd]; [now split|].
  split.
  - rewrite map_app. apply NoDup_app; auto.
    + cbn. constructor; [tauto|constructor].
    + intros a Ia [Eq|[]]. cbn in Eq. subst a.
      now apply (lookup_None _ _ Lk).
  - intros k v I. apply in_app_or in I. destruct I as [I|[Eq|[]]].
    + now apply Wf.
    + inversion Eq; subst. exact Hd.
Qed.

Lemma canonicalStore_delete (key : string) (w : kvstore) :
  canonicalStore w -> canonicalStore (snd (memDelete key w)).
Proof.
  intros [N Wf]. unfold memDelete. cbn [snd]. split.
  - now apply NoDup_keys_filter.
  - intros k v I. apply filter_In in I. apply Wf. tauto.
Qed.

Lemma serve_canonical (failure : option error)
  (p p' : Prog (retval * idAllocator)) (w w' : kvstore) :
  Canonical p -> canonicalStore w ->
  serve failure p w = Some (p', w') ->
  Canonical p' /\ canonicalStore w'.
Proof.
  intros Cp Cw Hs.
  destruct p as [x|ia prefix k|ia prefix k|ia key data k|ia key k];
    cbn [serve Canonical] in *; [discriminate| | | |].
  - destruct failure as [e|]; inversion Hs; subst; auto.
  - destruct failure as [e|]; inversion Hs; subst; auto.
  - destruct Cp as [Hd Ck].
    destruct failure as [e|]; [inversion Hs; subst; auto|].
    pose proof (canonicalStore_put key data w Cw Hd) as Cw'.
    destruct (memPutIfNotExists key data w) as [r w1].
    inversion Hs; subst. auto.
  - destruct failure as [e|]; [inversion Hs; subst; auto|].
    pose proof (canonicalStore_delete key w Cw) as Cw'.
    destruct (memDelete key w) as [r w1].
    inversion Hs; subst. auto.
Qed.

Lemma lost_canonical (e : error)
  (p p' : Prog (retval * idAllocator)) (w w' : kvstore) :
  Canonical p -> canonicalStore w ->
  serveLost e p w = Some (p', w') ->
  Canonical p' /\ canonicalStore w'.
Proof.
  intros Cp Cw Hs.
  destruct p as [x|ia prefix k|ia prefix k|ia key data k|ia key k];
    cbn [serveLost Canonical] in *; [discriminate| | | |];
    inversion Hs; subst; clear Hs.
  - auto.
  - auto.
  - destruct Cp as [Hd Ck]. split; [apply Ck|].
    now apply canonicalStore_put.
  - split; [apply Cp|]. now apply canonicalStore_delete.
Qed.

Lemma CanonInv_start : CanonInv startCluster.
Proof.
  split; [split; [constructor|intros key v []]|]. intros label. exact I.
Qed.

Lemma CanonInv_setNode (c : cluster) (label : string) (n : node)
  (w' : kvstore) (log : list (string * retval)) :
  CanonInv c -> canonicalStore w' -> nodeCanonical n ->
  CanonInv {| store := w'; nodes := setNode c label n; returned := log |}.
Proof.
  intros [_ Cn] Cw Cl. split; [exact Cw|].
  intros l0. cbn [nodes]. unfold setNode.
  destruct (String.eqb l0 label); [exact Cl|apply Cn].
Qed.

Lemma step_CanonInv (c c' : cluster) (a : action) :
  CanonInv c -> step c a = Some c' -> CanonInv c'.
Proof.
  intros HI Hs. pose proof HI as [Cw Cn].
  destruct a as [label|label|label failure|label e|label|label];
    cbn [step] in Hs; pose proof (Cn label) as Cl.
  - destruct (nodes c label) as [ia|p] eqn:Hn; inversion Hs; subst.
    apply CanonInv_setNode; auto. apply getID_canonical.
  - destruct (nodes c label) as [ia|p] eqn:Hn; inversion Hs; subst.
    apply CanonInv_setNode; auto. apply releaseID_canonical.
  - destruct (nodes c label) as [ia|p] eqn:Hn; [discriminate|].
    destruct (serve failure p (store c)) as [[p' w']|] eqn:Sv; [|discriminate].
    inversion Hs; subst.
    destruct (serve_canonical _ _ _ _ _ Cl Cw Sv) as [Cp' Cw'].
    apply CanonInv_setNode; auto.
  - destruct (nodes c label) as [ia|p] eqn:Hn; [discriminate|].
    destruct (serveLost e p (store c)) as [[p' w']|] eqn:Sv; [|discriminate].
    inversion Hs; subst.
    destruct (lost_canonical _ _ _ _ _ Cl Cw Sv) as [Cp' Cw'].
    apply CanonInv_setNode; auto.
  - destruct (nodes c label) as [ia|[x| | | |]] eqn:Hn; inversion Hs; subst.
    apply CanonInv_setNode; auto; exact I.
  - inversion Hs; subst. apply CanonInv_setNode; auto; exact I.
Qed.

Lemma execute_CanonInv (schedule : list action) :
  forall c c', CanonInv c -> execute c schedule = Some c' -> CanonInv c'.
Proof.
  induction schedule as [|a rest IH]; intros c c' HI H; cbn [execute] in H.
  - now inversion H; subst.
  - destruct (step c a) as [c1|] eqn:S1; [|discriminate].
    eapply IH; [|exact H]. eapply step_CanonInv; eauto.
Qed.

End CanonicalFacts.


(** X17: when the identifier of a record reads back as it was written
    (as it does from JSON, whatever the name), then in every state the
    cluster can reach, lost answers of the store included, the keys of
    the store are pairwise different and every record sits under the key
    createKey makes from the record's own identifier, so no identifier
    has two records. *)
Theorem cluster_store_canonical {Ser : Serializer}
  (schedule : list action) (c : cluster) :
  ReadsBackId Ser ->
  execute startCluster schedule = Some c ->
  NoDup (map fst (store c)) /\
  (forall key v,
     In (key, v) (store c) ->
     exists item, GetValue v = Ok item /\ key = createKey (Id item)) /\
  (forall key1 v1 item1 key2 v2 item2,
     In (key1, v1) (store c) -> In (key2, v2) (store c) ->
     GetValue v1 = Ok item1 -> GetValue v2 = Ok item2 ->
     Id item1 = Id item2 -> key1 = key2 /\ v1 = v2).
Proof.
  intros RB H.
  destruct (execute_CanonInv RB _ _ _ CanonInv_start H) as ((N & Wf) & _).
  split; [exact N|]. split; [exact Wf|].
  intros key1 v1 item1 key2 v2 item2 I1 I2 G1 G2 E.
  destruct (Wf _ _ I1) as (i1 & G1' & K1).
  destruct (Wf _ _ I2) as (i2 & G2' & K2).
  assert (i1 = item1) by congruence. assert (i2 = item2) by congruence.
  subst i1 i2. assert (K : key1 = key2) by congruence.
  split; [exact K|]. subst key2.
  pose proof (In_lookup _ _ _ N I1) as L1.
  pose proof (In_lookup _ _ _ N I2) as L2. congruence.
Qed.


(** X22: when the labels of the allocators read back from their records
    as they were written and nobody releases or restarts, then, even
    when answers of the store are lost, two allocators with different
    labels do not hold the same identifier, and the identifiers getID
    has returned without error to different labels are all different. *)
Theorem cluster_acquired_ids_differ {Ser : Serializer}
  (schedule : list action) (c : cluster) :
  Forall (fun a => ReadsBack (actor a)) schedule ->
  forallb isAcquire schedule = true ->
  execute startCluster schedule = Some c ->
  (forall l1 l2,
     l1 <> l2 ->
     allocated (memory (nodes c l1)) = true ->
     allocated (memory (nodes c l2)) = true ->
     ID (memory (nodes c l1)) <> ID (memory (nodes c l2))) /\
  (forall l1 l2 id1 id2,
     l1 <> l2 ->
     In (l1, GetIDRet id1 None) (returned c) ->
     In (l2, GetIDRet id2 None) (returned c) ->
     id1 <> id2).
Proof.
  intros RB Ha H.
  destruct (execute_AcqInv _ _ _ AcqInv_start RB Ha H) as (HI & _ & Rt).
  split.
  - intros l1 l2. now apply Inv_unique.
  - intros l1 l2 id1 id2 D I1 I2.
    destruct (Rt _ _ I1) as [A1 <-]. destruct (Rt _ _ I2) as [A2 <-].
    now apply Inv_unique.
Qed.

(** X23: when the store deletes the record of a release but the answer
    is lost, releaseID returns the failure and the allocator stays in
    the allocated state; the identifier is free in the store, and the
    next allocator that acquires gets it: "a" and "b" both hold
    identifier 1, and the one record of the store is the record of
    "b". *)
Theorem lost_release_shares_identifier (e : error) :
  option_map
    (fun c => (memory (nodes c "a"), memory (nodes c "b"),
               returned c, store c))
    (@execute jsonSerializer startCluster (lostReleaseSchedule e)) =
  Some ({| serviceLabel := "a"; allocated := true; ID := 1 |},
        {| serviceLabel := "b"; allocated := true; ID := 1 |},
        [("a"%string, GetIDRet 1 None);
         ("a"%string, ReleaseIDRet (Some e));
         ("b"%string, GetIDRet 1 None)],
        [("allocatedIDs/1"%string, Some {| Name := "b"; Id := 1 |})]).
Proof. vm_compute. reflexivity. Qed.

(** ** One record per owner *)

Section OwnerFacts.
Context {Ser : Serializer}.

Local Arguments createKey : simpl never.
Local Arguments findFirstAvailableIndex : simpl never.
Local Arguments sortInts : simpl never.
Local Arguments toUint32 : simpl never.
Local Arguments wrapInt : simpl never.
Local Arguments Z.gtb : simpl never.

Lemma scanEntries_none (label : string) :
  forall kvs,
    scanEntries label kvs = (None, None) -> noRecordOf label kvs.
Proof.
  induction kvs as [|kv kvs IH]; cbn [scanEntries]; intros H.
  - constructor.
  - destruct (GetValue (snd kv)) as [item|e] eqn:G; [|discriminate].
    destruct (String.eqb (Name item) label) eqn:E; [discriminate|].
    apply String.eqb_neq in E. constructor; [|now apply IH].
    now exists item.
Qed.

Lemma allocLoop_discovers (label : string) (fuel : nat) :
  forall attempts ia,
    Discovers label
      (inCall (fun r => GetIDRet (fst r) (snd r))
         (allocLoop fuel attempts ia)).
Proof.
  induction fuel as [|fuel IH]; intros a ia; cbn; [exact I|].
  intros [keys|e]; cbn; [|exact I].
  destruct (collectIDs keys []) as [ids [e|]]; cbn; [exact I|].
  destruct (Marshal _) as [v|e]; cbn; [|exact I].
  intros [[|]|e]; cbn.
  - split; [exact I|reflexivity].
  - split; [|discriminate].
    destruct (wrapInt (a + 1) >? maxAttempts); cbn; [exact I|apply IH].
  - split; [exact I|discriminate].
Qed.

Lemma getID_discovers (ia : idAllocator) :
  Discovers (serviceLabel ia)
    (inCall (fun r => GetIDRet (fst r) (snd r)) (getID ia)) /\
  inLoop (inCall (fun r => GetIDRet (fst r) (snd r)) (getID ia)) = false.
Proof.
  unfold getID, bind, self, inCall. cbn -[allocLoop].
  destruct (allocated ia); cbn -[allocLoop]; [split; [exact I|reflexivity]|].
  split; [|reflexivity]. split; [reflexivity|].
  intros [kvs|e]; cbn -[allocLoop]; [|split; [exact I|discriminate]].
  destruct (scanEntries (serviceLabel ia) kvs) as [[item|] [e|]] eqn:S0;
    cbn -[allocLoop]; try (split; [exact I|discriminate]).
  split; [apply allocLoop_discovers|].
  intros _. exists kvs. split; [reflexivity|now apply scanEntries_none].
Qed.

Lemma releaseID_discovers (label : string) (ia : idAllocator) :
  Discovers label (inCall ReleaseIDRet (releaseID ia)) /\
  inLoop (inCall ReleaseIDRet (releaseID ia)) = false.
Proof.
  unfold releaseID, bind, self, inCall. cbn.
  destruct (allocated ia); cbn; [|split; [exact I|reflexivity]].
  split; [|reflexivity]. intros [b|e]; cbn; split; auto.
Qed.

Lemma OwnInv_start : OwnInv startCluster.
Proof.
  split; [apply Inv_start|]. split.
  - intros key1 v1 item1 key2 v2 item2 [].
  - intros label. cbn. split; [exact I|discriminate].
Qed.

(** A step that leaves the store as it is. *)
Lemma OwnInv_same_store (c : cluster) (label : string) (n : node)
  (log : list (string * retval)) :
  OwnInv c ->
  Inv {| store := store c; nodes := setNode c label n; returned := log |} ->
  nodeDiscovers label n ->
  (nodeInLoop n = true -> noRecordNamed (store c) label) ->
  OwnInv {| store := store c; nodes := setNode c label n; returned := log |}.
Proof.
  intros (_ & O1 & O2) HI Dn Ln. split; [exact HI|]. split; [exact O1|].
  intros l0. cbn [store nodes]. unfold setNode.
  destruct (String.eqb_spec l0 label) as [->|D]; [now split|apply O2].
Qed.

Lemma store_all_listed (c : cluster) :
  Inv c ->
  filter (under allocatedIDsKeyPrefix) (store c) = store c.
Proof.
  intros (_ & Wf & _). revert Wf. generalize (store c).
  induction k as [|[key v] w IH]; intros Wf; [reflexivity|].
  cbn [filter]. destruct (Wf key v (or_introl eq_refl)) as (item & _ & ->).
  rewrite under_createKey. f_equal. apply IH.
  intros k' v' I. apply Wf. now right.
Qed.

Lemma noRecordOf_named (label : string) (w : kvstore) :
  noRecordOf label w -> noRecordNamed w label.
Proof.
  intros H key v item I G. unfold noRecordOf in H.
  rewrite Forall_forall in H. destruct (H _ I) as (item' & G' & N).
  cbn [snd] in G'. congruence.
Qed.

Lemma serve_OwnInv (c : cluster) (label : string) (failure : option error)
  (p p' : Prog (retval * idAllocator)) (w' : kvstore)
  (log : list (string * retval)) :
  OwnInv c ->
  nodes c label = Running p ->
  serve failure p (store c) = Some (p', w') ->
  OwnInv {| store := w'; nodes := setNode c label (Running p');
            returned := log |}.
Proof.
  intros HO Hn Hs. pose proof HO as (HI & O1 & O2).
  pose proof (serve_Inv c label failure p p' w' log HI Hn Hs) as HI'.
  pose proof HI as (_ & _ & Nodes).
  destruct (Nodes label) as [Sf _]. rewrite Hn in Sf. cbn [nodeSafe] in Sf.
  destruct (O2 label) as [Dp Lp]. rewrite Hn in Dp, Lp.
  cbn [nodeDiscovers nodeInLoop] in Dp, Lp.
  destruct p as [x|ia prefix k|ia prefix k|ia key data k|ia key k];
    cbn [serve] in Hs; [discriminate| | | |].
  - (* ListValues *)
    cbn [Discovers] in Dp. destruct Dp as [-> Dp].
    assert (E : exists r,
               p' = k r /\ w' = store c /\
               (forall kvs, r = Ok kvs -> kvs = store c)).
    { destruct failure as [e|]; inversion Hs; subst.
      - exists (Err e). repeat split. discriminate.
      - eexists. repeat split. intros kvs Eq. inversion Eq.
        apply (store_all_listed c HI). }
    destruct E as (r & -> & -> & Sub).
    destruct (Dp r) as [Dr Lr].
    apply OwnInv_same_store; auto.
    cbn [nodeInLoop]. intros F. destruct (Lr F) as (kvs & -> & Nr).
    apply noRecordOf_named. now rewrite <- (Sub _ eq_refl).
  - (* ListKeys *)
    cbn [Discovers] in Dp.
    assert (E : exists r, p' = k r /\ w' = store c).
    { destruct failure as [e|]; inversion Hs; subst; eexists; eauto. }
    destruct E as (r & -> & ->).
    apply OwnInv_same_store; auto;
      first [apply Dp | intros _; now apply Lp].
  - (* PutIfNotExists *)
    cbn [Discovers] in Dp. destruct Sf as (Lb & A & id & -> & G & Sk).
    specialize (Lp eq_refl).
    assert (E : (exists r, p' = k r /\ w' = store c) \/
                (p' = k (Ok true) /\
                 w' = (store c ++ [(createKey id, data)])%list)).
    { destruct failure as [e|].
      - inversion Hs; subst. left. now exists (Err e).
      - unfold memPutIfNotExists in Hs.
        destruct (lookup (createKey id) (store c)) eqn:Lk;
          inversion Hs; subst.
        + left. now exists (Ok false).
        + right. auto. }
    destruct E as [(r & -> & ->)|(-> & ->)].
    + apply OwnInv_same_store; auto; apply Dp.
    + destruct (Dp (Ok true)) as [Dr Lr]. specialize (Lr eq_refl).
      split; [exact HI'|]. split.
      * intros key1 v1 item1 key2 v2 item2 I1 I2 G1 G2 E.
        apply in_app_or in I1. apply in_app_or in I2.
        destruct I1 as [I1|[I1|[]]], I2 as [I2|[I2|[]]].
        -- eapply O1; eauto.
        -- inversion I2; subst. rewrite G in G2. inversion G2; subst.
           cbn [Name] in E. elim (Lp _ _ _ I1 G1 E).
        -- inversion I1; subst. rewrite G in G1. inversion G1; subst.
           cbn [Name] in E. symmetry in E. elim (Lp _ _ _ I2 G2 E).
        -- inversion I1; inversion I2; congruence.
      * intros l0. cbn [store nodes]. unfold setNode.
        destruct (String.eqb_spec l0 label) as [->|D].
        -- split; [exact Dr|]. cbn [nodeInLoop]. congruence.
        -- destruct (O2 l0) as [D0 L0]. split; [exact D0|].
           intros F key v item I Gv. apply in_app_or in I.
           destruct I as [I|[I|[]]].
           ++ eapply L0; eauto.
           ++ inversion I; subst. rewrite G in Gv. inversion Gv; subst.
              cbn [Name]. congruence.
  - (* Delete *)
    cbn [Discovers] in Dp.
    destruct failure as [e|]; inversion Hs; subst.
    + destruct (Dp (Err e)) as [Dr Lr].
      apply OwnInv_same_store; auto. cbn [nodeInLoop]. congruence.
    + match goal with
      | |- context [k (Ok ?b)] => destruct (Dp (Ok b)) as [Dr Lr]
      end.
      split; [exact HI'|]. split.
      * intros key1 v1 item1 key2 v2 item2 I1 I2.
        apply filter_In in I1. apply filter_In in I2.
        apply O1; tauto.
      * intros l0. cbn [store nodes]. unfold setNode.
        destruct (String.eqb_spec l0 label) as [->|D].
        -- split; [exact Dr|]. cbn [nodeInLoop]. congruence.
        -- destruct (O2 l0) as [D0 L0]. split; [exact D0|].
           intros F key' v item I. apply filter_In in I.
           apply (L0 F key' v item). tauto.
Qed.

Lemma step_OwnInv (c c' : cluster) (a : action) :
  OwnInv c -> ReadsBack (actor a) -> acknowledged a = true ->
  step c a = Some c' -> OwnInv c'.
Proof.
  intros HO RB Ak Hs. pose proof HO as (HI & O1 & O2).
  pose proof (step_Inv c c' a HI RB Ak Hs) as HI'.
  pose proof HI as (_ & _ & Nodes).
  destruct a as [label|label|label failure|label e|label|label];
    try discriminate Ak; cbn [step] in Hs;
    destruct (Nodes label) as [Sf _].
  - destruct (nodes c label) as [ia|p] eqn:Hn; inversion Hs; subst.
    cbn [nodeSafe] in Sf. destruct (getID_discovers ia) as [D1 D2].
    apply OwnInv_same_store; auto.
    + cbn [nodeDiscovers]. now rewrite <- Sf.
    + cbn [nodeInLoop]. fold (inCall (fun r => GetIDRet (fst r) (snd r))
                                  (getID ia)). congruence.
  - destruct (nodes c label) as [ia|p] eqn:Hn; inversion Hs; subst.
    destruct (releaseID_discovers label ia) as [D1 D2].
    apply OwnInv_same_store; auto. cbn [nodeInLoop]. congruence.
  - destruct (nodes c label) as [ia|p] eqn:Hn; [discriminate|].
    destruct (serve failure p (store c)) as [[p' w']|] eqn:Sv; [|discriminate].
    inversion Hs; subst. eapply serve_OwnInv; eauto.
  - destruct (nodes c label) as [ia|[x| | | |]] eqn:Hn; inversion Hs; subst.
    apply OwnInv_same_store; auto; [exact I|discriminate].
  - inversion Hs; subst. apply OwnInv_same_store; auto;
      [exact I|discriminate].
Qed.

Lemma execute_OwnInv (schedule : list action) :
  forall c c',
    OwnInv c ->
    Forall (fun a => ReadsBack (actor a)) schedule ->
    forallb acknowledged schedule = true ->
    execute c schedule = Some c' -> OwnInv c'.
Proof.
  induction schedule as [|a rest IH]; intros c c' HI RB Ak H;
    cbn [execute forallb] in *.
  - now inversion H; subst.
  - apply andb_true_iff in Ak. destruct Ak as [Ak Ar].
    inversion RB as [|? ? RBa RBr]; subst.
    destruct (step c a) as [c1|] eqn:S1; [|discriminate].
    eapply IH; [|exact RBr|exact Ar|exact H]. eapply step_OwnInv; eauto.
Qed.

End OwnerFacts.

(** X18: when the labels of the allocators read back from their records
    as they were written and no answer of the store is lost, then in
    every state the cluster can reach the store holds at most one
    record per service label, and while an allocator is in the
    allocation loop of getID (about to list the keys or to write) the
    store holds no record of its label. *)
Theorem cluster_one_record_per_owner {Ser : Serializer}
  (schedule : list action) (c : cluster) :
  Forall (fun a => ReadsBack (actor a)) schedule ->
  forallb acknowledged schedule = true ->
  execute startCluster schedule = Some c ->
  (forall key1 v1 item1 key2 v2 item2,
     In (key1, v1) (store c) -> In (key2, v2) (store c) ->
     GetValue v1 = Ok item1 -> GetValue v2 = Ok item2 ->
     Name item1 = Name item2 -> key1 = key2 /\ v1 = v2) /\
  (forall label key v item,
     nodeInLoop (nodes c label) = true ->
     In (key, v) (store c) -> GetValue v = Ok item -> Name item <> label).
Proof.
  intros RB Ak H.
  destruct (execute_OwnInv _ _ _ OwnInv_start RB Ak H)
    as ((N & _ & _) & O1 & O2).
  split.
  - intros key1 v1 item1 key2 v2 item2 I1 I2 G1 G2 E.
    assert (K : key1 = key2) by (eapply O1; eauto).
    split; [exact K|]. subst key2.
    pose proof (In_lookup _ _ _ N I1) as L1.
    pose proof (In_lookup _ _ _ N I2) as L2. congruence.
  - intros label key v item F I G. destruct (O2 label) as [_ Ln].
    exact (Ln F key v item I G).
Qed.

(** ** The invariants at work *)

Lemma busySchedule_runs :
  option_map
    (fun c => (store c, returned c,
               memory (nodes c "a"), memory (nodes c "b"),
               nodeInLoop (nodes c "c")))
    (@execute jsonSerializer startCluster busySchedule) =
  Some ([("allocatedIDs/2"%string, Some {| Name := "a"; Id := 2 |})],
        [("a"%string, GetIDRet 2 None); ("b"%string, GetIDRet 1 None);
         ("b"%string, ReleaseIDRet None); ("a"%string, GetIDRet 2 None)],
        {| serviceLabel := "a"; allocated := true; ID := 2 |},
        {| serviceLabel := "b"; allocated := false; ID := 1 |},
        true).
Proof. vm_compute. reflexivity. Qed.

Lemma busySchedule_readsBack :
  Forall (fun a => @ReadsBack jsonSerializer (actor a)) busySchedule.
Proof. apply jsonSerializer_readsBack_all. vm_compute. reflexivity. Qed.



Lemma lostWriteSchedule_runs (e : error) :
  option_map
    (fun c => (store c, returned c))
    (@execute jsonSerializer startCluster (lostWriteSchedule e)) =
  Some ([("allocatedIDs/1"%string, Some {| Name := "a"; Id := 1 |});
         ("allocatedIDs/2"%string, Some {| Name := "b"; Id := 2 |})],
        [("a"%string, GetIDRet 0 (Some e)); ("b"%string, GetIDRet 2 None);
         ("a"%string, GetIDRet 1 None)]).
Proof. vm_compute. reflexivity. Qed.

Lemma lostWriteSchedule_readsBack (e : error) :
  Forall (fun a => @ReadsBack jsonSerializer (actor a)) (lostWriteSchedule e).
Proof. apply jsonSerializer_readsBack_all. vm_compute. reflexivity. Qed.

Lemma lost_release_runs (e : error) :
  option_map (fun c => store c)
    (@execute jsonSerializer startCluster (lostReleaseSchedule e)) =
  Some [("allocatedIDs/1"%string, Some {| Name := "b"; Id := 1 |})].
Proof. vm_compute. reflexivity. Qed.


Lemma cluster_store_canonical_witness :
  match
    @execute jsonSerializer startCluster
      (lostReleaseSchedule (ExternalError "context deadline exceeded"))
  with
  | Some c => NoDup (map fst (store c))
  | None => False
  end.
Proof.
  pose proof (lost_release_runs (ExternalError "context deadline exceeded"))
    as O.
  destruct (@execute jsonSerializer startCluster _) as [c|] eqn:E;
    cbn [option_map] in O; [|discriminate O].
  apply (@cluster_store_canonical jsonSerializer _ c
           jsonSerializer_readsBackId E).
Defined.

Lemma cluster_one_record_per_owner_witness :
  match @execute jsonSerializer startCluster busySchedule with
  | Some c =>
      forall key v item,
        In (key, v) (store c) -> GetValue v = Ok item -> Name item <> "c"%string
  | None => False
  end.
Proof.
  pose proof busySchedule_runs as O.
  destruct (@execute jsonSerializer startCluster busySchedule) as [c|] eqn:E;
    cbn [option_map] in O; [|discriminate O].
  injection O as Os Or Oa Ob Oc.
  destruct (@cluster_one_record_per_owner jsonSerializer busySchedule c
              busySchedule_readsBack eq_refl E) as [_ H].
  intros key v item. now apply H.
Defined.


Lemma cluster_acquired_ids_differ_witness :
  match
    @execute jsonSerializer startCluster
      (lostWriteSchedule (ExternalError "context deadline exceeded"))
  with
  | Some c =>
      returned c =
        [("a"%string,
          GetIDRet 0 (Some (ExternalError "context deadline exceeded")));
         ("b"%string, GetIDRet 2 None); ("a"%string, GetIDRet 1 None)] /\
      forall id1 id2,
        In ("a"%string, GetIDRet id1 None) (returned c) ->
        In ("b"%string, GetIDRet id2 None) (returned c) ->
        id1 <> id2
  | None => False
  end.
Proof.
  pose proof (lostWriteSchedule_runs
                (ExternalError "context deadline exceeded")) as O.
  destruct (@execute jsonSerializer startCluster _) as [c|] eqn:E;
    cbn [option_map] in O; [|discriminate O].
  injection O as Os Or. split; [exact Or|].
  destruct (@cluster_acquired_ids_differ jsonSerializer _ c
              (lostWriteSchedule_readsBack _) eq_refl E) as [_ H].
  intros id1 id2. apply H. discriminate.
Defined.
